(** * MEDLINE author/e-mail extractor: a shallow embedding of [app.py]

    The development follows the source file top to bottom:
    - [Py]: the Python built-ins the parser calls ([str.strip],
      [str.startswith], [str.split], [str.splitlines], [str.join], indexing);
    - [Re]: the fragment of Python's backtracking [re] engine needed for
      [EMAIL_RX] and for the record separator given to [re.split];
    - [parse_medline_text] and the part of the Streamlit script that
      accumulates rows and drops duplicates.

    A Python [str] is a sequence of Unicode code points; a code point is a
    number of type [N].  Exceptions are explicit: a computation that may raise
    has a type [result A]. *)

From Stdlib Require Import List NArith Bool Arith Lia String Ascii.
Import ListNotations.

Open Scope string_scope.
Open Scope list_scope.
Open Scope N_scope.

(** ** Python built-ins *)

Module Py.

(** A code point, and a Python [str]. *)
Abbreviation char := N (only parsing).
Abbreviation str := (list N) (only parsing).

(** An ASCII literal of the source, as a [str]. *)
Definition lit (s : string) : str := map N_of_ascii (list_ascii_of_string s).

(** The exceptions the parser's expressions can raise. *)
Inductive exn := IndexError.

Inductive result (A : Type) : Type :=
| Ok (a : A)
| Raise (e : exn).
Arguments Ok {A} a.
Arguments Raise {A} e.

Definition bind {A B} (m : result A) (f : A -> result B) : result B :=
  match m with
  | Ok a => f a
  | Raise e => Raise e
  end.

(** [str.isspace] on one code point (CPython's [_PyUnicode_IsWhitespace]);
    [str.strip()] and the pattern class [\s] both use it. *)
Definition isspace (c : char) : bool :=
  ((0x09 <=? c) && (c <=? 0x0D)) || ((0x1C <=? c) && (c <=? 0x20))
  || (c =? 0x85) || (c =? 0xA0) || (c =? 0x1680)
  || ((0x2000 <=? c) && (c <=? 0x200A))
  || (c =? 0x2028) || (c =? 0x2029) || (c =? 0x202F) || (c =? 0x205F)
  || (c =? 0x3000).

(** Line boundaries of [str.splitlines] (CPython's [_PyUnicode_IsLinebreak]). *)
Definition islinebreak (c : char) : bool :=
  ((0x0A <=? c) && (c <=? 0x0D)) || ((0x1C <=? c) && (c <=? 0x1E))
  || (c =? 0x85) || (c =? 0x2028) || (c =? 0x2029).

Fixpoint takewhile {A} (p : A -> bool) (l : list A) : list A :=
  match l with
  | [] => []
  | x :: l' => if p x then x :: takewhile p l' else []
  end.

Fixpoint dropwhile {A} (p : A -> bool) (l : list A) : list A :=
  match l with
  | [] => []
  | x :: l' => if p x then dropwhile p l' else l
  end.

Definition lstrip (s : str) : str := dropwhile isspace s.
Definition rstrip (s : str) : str := rev (dropwhile isspace (rev s)).

(** [s.strip()] *)
Definition strip (s : str) : str := rstrip (lstrip s).

(** [s.startswith(prefix)] *)
Fixpoint startswith (prefix s : str) : bool :=
  match prefix, s with
  | [], _ => true
  | _ :: _, [] => false
  | p :: prefix', c :: s' => (c =? p) && startswith prefix' s'
  end.

(** [s.split(sep, 1)] for a one-character separator: cut at the first
    occurrence of [sep], or the whole string in a one-element list. *)
Fixpoint split1 (sep : char) (s : str) : list str :=
  match s with
  | [] => [[]]
  | c :: s' =>
      if c =? sep then [[]; s']
      else match split1 sep s' with
           | h :: t => (c :: h) :: t
           | [] => []
           end
  end.

(** [l[i]]: raises [IndexError] out of range. *)
Definition index {A} (l : list A) (i : nat) : result A :=
  match nth_error l i with
  | Some x => Ok x
  | None => Raise IndexError
  end.

(** [sep.join(l)] *)
Fixpoint join (sep : str) (l : list str) : str :=
  match l with
  | [] => []
  | [x] => x
  | x :: l' => x ++ sep ++ join sep l'
  end.

(** [s.splitlines()]: [cur] is the line in progress, reversed.  A line ends at
    a line boundary ("\r\n" counting as one) or at the end of the text; no
    line is opened after the last boundary. *)
Fixpoint splitlines_from (cur : str) (s : str) : list str :=
  match s with
  | [] => [rev cur]
  | c :: s' =>
      if islinebreak c then
        rev cur ::
        match s' with
        | [] => []
        | d :: s'' =>
            if (c =? 0x0D) && (d =? 0x0A) then
              match s'' with
              | [] => []
              | _ :: _ => splitlines_from [] s''
              end
            else splitlines_from [] s'
        end
      else splitlines_from (c :: cur) s'
  end.

Definition splitlines (s : str) : list str :=
  match s with
  | [] => []
  | _ :: _ => splitlines_from [] s
  end.

End Py.

Import Py.

Declare Scope py_scope.
Delimit Scope py_scope with py.
Notation "x <- m ;; k" := (bind m (fun x => k))
  (at level 61, m at next level, right associativity) : py_scope.
Open Scope py_scope.

(** ** The fragment of [re] used by the script *)

Module Re.

(** Pattern items: one character of a class (a literal is the class of that
    one character), a greedy repetition [cls{lo,}] of a class, and a positive
    lookahead [(?=...)] over a fixed sequence of one-character classes. *)
Inductive atom :=
| One (cls : char -> bool)
| Many (lo : nat) (cls : char -> bool)
| Ahead (items : list (char -> bool)).

Definition regex := list atom.

Definition chr (c : char) : char -> bool := N.eqb c.

(** [backtrack f lo n]: the greedy repetition took [n] characters; try the
    rest of the pattern after [n], [n-1], ..., [lo] of them and keep the first
    success. *)
Fixpoint backtrack {A} (f : nat -> option A) (lo n : nat) : option A :=
  if (n <? lo)%nat then None
  else match f n with
       | Some r => Some r
       | None => match n with
                 | O => None
                 | S n' => backtrack f lo n'
                 end
       end.

Fixpoint ahead (items : list (char -> bool)) (s : str) : bool :=
  match items, s with
  | [], _ => true
  | _ :: _, [] => false
  | p :: items', c :: s' => p c && ahead items' s'
  end.

(** [match_at r s]: the pattern matched at the start of [s], as the engine
    finds it; the result is the length of the match. *)
Fixpoint match_at (r : regex) (s : str) : option nat :=
  match r with
  | [] => Some O
  | One cls :: r' =>
      match s with
      | c :: s' => if cls c then option_map S (match_at r' s') else None
      | [] => None
      end
  | Many lo cls :: r' =>
      backtrack (fun k => option_map (Nat.add k) (match_at r' (skipn k s)))
                lo (List.length (takewhile cls s))
  | Ahead items :: r' => if ahead items s then match_at r' s else None
  end.

(** [r.search(s)]: the first position, left to right, where the pattern
    matches; the result is [(m.start(), m.group(0))]. *)
Fixpoint search_from (r : regex) (pos : nat) (s : str) : option (nat * str) :=
  match match_at r s with
  | Some len => Some (pos, firstn len s)
  | None => match s with
            | [] => None
            | _ :: s' => search_from r (S pos) s'
            end
  end.

Definition search (r : regex) (s : str) : option (nat * str) := search_from r 0 s.

(** [re.split(sep, s)] for a separator without groups whose matches are not
    empty: the pieces of [s] between successive matches.  [cur] is the piece
    in progress, reversed; [skip] counts the characters of the current match
    still to be passed. *)
Fixpoint split_from (sep : regex) (cur : str) (skip : nat) (s : str) : list str :=
  match s with
  | [] => [rev cur]
  | c :: s' =>
      match skip with
      | S k => split_from sep cur k s'
      | O => match match_at sep s with
             | Some (S k) => rev cur :: split_from sep [] k s'
             | _ => split_from sep (c :: cur) O s'
             end
      end
  end.

Definition split (sep : regex) (s : str) : list str := split_from sep [] O s.

End Re.

(** ** Pandas: [DataFrame.drop_duplicates(subset=...)], default [keep='first'] *)

Module Pd.

Section DropDuplicates.
Variables (R K : Type).
Variable key : R -> K.
Hypothesis key_eq_dec : forall a b : K, {a = b} + {a <> b}.

(** Rows in order; a row is dropped when the key of an earlier row equals its
    key.  [seen] holds the keys met so far. *)
Fixpoint drop_from (seen : list K) (rows : list R) : list R :=
  match rows with
  | [] => []
  | r :: rows' =>
      if in_dec key_eq_dec (key r) seen then drop_from seen rows'
      else r :: drop_from (key r :: seen) rows'
  end.

Definition drop_duplicates (rows : list R) : list R := drop_from [] rows.

End DropDuplicates.

Arguments drop_from {R K} key key_eq_dec seen rows.
Arguments drop_duplicates {R K} key key_eq_dec rows.

End Pd.

(** ** [app.py] *)

Definition isalpha_ascii (c : char) : bool :=
  ((0x41 <=? c) && (c <=? 0x5A)) || ((0x61 <=? c) && (c <=? 0x7A)).
Definition isdigit_ascii (c : char) : bool := (0x30 <=? c) && (c <=? 0x39).
Definition one_of (s : string) (c : char) : bool := existsb (N.eqb c) (lit s).

(** [[A-Za-z0-9._%+\-]] *)
Definition local_cls (c : char) : bool :=
  isalpha_ascii c || isdigit_ascii c || one_of "._%+-" c.
(** [[A-Za-z0-9.\-]] *)
Definition domain_cls (c : char) : bool :=
  isalpha_ascii c || isdigit_ascii c || one_of ".-" c.

(** [EMAIL_RX = re.compile(r'[A-Za-z0-9._%+\-]+@[A-Za-z0-9.\-]+\.[A-Za-z]{2,}')] *)
Definition EMAIL_RX : Re.regex :=
  [Re.Many 1 local_cls; Re.One (Re.chr 0x40); Re.Many 1 domain_cls;
   Re.One (Re.chr 0x2E); Re.Many 2 isalpha_ascii].

(** [r'\n(?=PMID-\s)'], the separator of [re.split] *)
Definition RECORD_SEP : Re.regex :=
  [Re.One (Re.chr 0x0A);
   Re.Ahead (map Re.chr (lit "PMID-") ++ [isspace])].

Record Row := mkRow {
  PMID : option str;
  Title : option str;
  Author : str;
  Email : str
}.

(** [line.split('-', 1)[1].strip()] *)
Definition field_value (line : str) : result str :=
  v <- index (split1 0x2D line) 1 ;; Ok (strip v).

(** Pass 1 of a chunk, [for line in lines]: every matching line assigns. *)
Fixpoint header_pass (lines : list str) (pmid title : option str)
  : result (option str * option str) :=
  match lines with
  | [] => Ok (pmid, title)
  | line :: lines' =>
      if startswith (lit "PMID-") line then
        v <- field_value line ;; header_pass lines' (Some v) title
      else if startswith (lit "TI  -") line then
        v <- field_value line ;; header_pass lines' pmid (Some v)
      else header_pass lines' pmid title
  end.

(** The [k] loop: [from_k] is [lines[k:]]; the result is what the loop appends
    to [aff_lines]. *)
Fixpoint continuation_lines (from_k : list str) : list str :=
  match from_k with
  | [] => []
  | line :: rest =>
      if startswith (lit " ") line then strip line :: continuation_lines rest
      else []
  end.

(** The branch taken at an ['AD  -'] line [lines[j]], up to the assignment of
    [aff_text]; [after_j] is [lines[j+1:]]. *)
Definition aff_text (line_j : str) (after_j : list str) : result str :=
  v <- field_value line_j ;;
  let aff_lines := v :: continuation_lines after_j in
  Ok (join (lit " ") aff_lines).

(** The rest of that branch: the value of [email] at the [break]. *)
Definition affiliation_email (line_j : str) (after_j : list str) : result str :=
  text <- aff_text line_j after_j ;;
  match Re.search EMAIL_RX text with
  | Some m => Ok (snd m)
  | None => Ok []
  end.

(** The [j] loop: [from_j] is [lines[j:]]; the result is the value of [email]
    when the loop is left. *)
Fixpoint look_ahead (from_j : list str) : result str :=
  match from_j with
  | [] => Ok []
  | line :: rest =>
      if startswith (lit "AD  -") line then affiliation_email line rest
      else if startswith (lit "FAU -") line then Ok []
      else look_ahead rest
  end.

(** Pass 2 of a chunk, the [i] loop: [from_i] is [lines[i:]] and [records] the
    list being appended to. *)
Fixpoint author_pass (pmid title : option str) (from_i : list str)
  (records : list Row) : result (list Row) :=
  match from_i with
  | [] => Ok records
  | line :: rest =>
      if startswith (lit "FAU -") line then
        author <- field_value line ;;
        email <- look_ahead rest ;;
        match email with
        | [] => author_pass pmid title rest records
        | _ :: _ =>
            author_pass pmid title rest
              (records ++ [mkRow pmid title author email])
        end
      else author_pass pmid title rest records
  end.

(** The body of [for chunk in chunks]. *)
Definition parse_chunk (chunk : str) (records : list Row) : result (list Row) :=
  let lines := splitlines chunk in
  hd <- header_pass lines None None ;;
  author_pass (fst hd) (snd hd) lines records.

Fixpoint parse_chunks (chunks : list str) (records : list Row)
  : result (list Row) :=
  match chunks with
  | [] => Ok records
  | chunk :: chunks' =>
      records' <- parse_chunk chunk records ;; parse_chunks chunks' records'
  end.

Definition parse_medline_text (text : str) : result (list Row) :=
  let chunks := Re.split RECORD_SEP (strip text) in
  parse_chunks chunks [].

(** *** The Streamlit script; its inputs are the decoded texts of the
    uploaded files, in upload order. *)

Definition subset (r : Row) : option str * str * str := (PMID r, Author r, Email r).

Lemma subset_eq_dec (a b : option str * str * str) : {a = b} + {a <> b}.
Proof. repeat decide equality; apply N.eq_dec. Defined.

(** The branch the script takes, with the table in the branch that builds
    one.  The script is followed up to the statement that assigns [df]; the
    text of [st.success], which prints [len(df)] and [len(uploaded_files)],
    and the exports after it (CSV, Excel, clipboard) are calls into pandas,
    json and Streamlit and are not part of the model.  [Success df] says that
    this branch is entered with the table [df]; it says nothing of what the
    exports do. *)
Inductive page :=
| Nothing                      (* no file uploaded yet *)
| Success (df : list Row)      (* the branch of [if all_records:], table [df] *)
| Warning.                     (* [st.warning]: no authors with emails found *)

(** [for uploaded in uploaded_files: all_records.extend(...)] *)
Fixpoint extend_all (texts : list str) (all_records : list Row)
  : result (list Row) :=
  match texts with
  | [] => Ok all_records
  | raw_text :: texts' =>
      rows <- parse_medline_text raw_text ;;
      extend_all texts' (all_records ++ rows)
  end.

(** The script from [if uploaded_files:] to the assignment of [df], or to
    [st.warning]. *)
Definition script (uploaded_files : list str) : result page :=
  match uploaded_files with
  | [] => Ok Nothing
  | _ :: _ =>
      all_records <- extend_all uploaded_files [] ;;
      match all_records with
      | [] => Ok Warning
      | _ :: _ => Ok (Success (Pd.drop_duplicates subset subset_eq_dec all_records))
      end
  end.

(** Texts are written as lists of lines joined by a line feed. *)
Definition text_of (ls : list string) : str := join [0x0A] (map lit ls).

(** ** Vocabulary of the statements *)

(** The four tags of the parser, each with its dash at index 4. *)
Definition tags : list str :=
  [lit "PMID-"; lit "TI  -"; lit "FAU -"; lit "AD  -"].

(** A line the [j] loop passes over: neither of its two tests holds. *)
Definition passed_over (line : str) : Prop :=
  startswith (lit "AD  -") line = false /\ startswith (lit "FAU -") line = false.

(** No author line of [lines] finds an e-mail: the look-ahead from each
    ['FAU -'] line ends with [email] empty. *)
Definition no_author_email (lines : list str) : Prop :=
  forall pre line rest,
    lines = pre ++ line :: rest ->
    startswith (lit "FAU -") line = true -> look_ahead rest = Ok [].

(** The record-start marker of the separator pattern: the text begins with
    ['PMID-'] followed by one whitespace character. *)
Definition record_start (s : str) : bool :=
  startswith (lit "PMID-") s
  && match nth_error s 5 with
     | Some c => isspace c
     | None => false
     end.

(** The shape of an address in the words of the specification:
    [local-part@domain.tld]. *)
Definition email_shape (m : str) : Prop :=
  exists local domain tld,
    m = local ++ [0x40] ++ domain ++ [0x2E] ++ tld
    /\ local <> [] /\ Forall (fun c => local_cls c = true) local
    /\ domain <> [] /\ Forall (fun c => domain_cls c = true) domain
    /\ (2 <= List.length tld)%nat
    /\ Forall (fun c => isalpha_ascii c = true) tld.

(** [matches r w rest]: the word [w], followed in the text by [rest], is in
    the language of the pattern [r]. *)
Inductive matches : Re.regex -> str -> str -> Prop :=
| matches_nil rest : matches [] [] rest
| matches_One cls r c w rest :
    cls c = true -> matches r w rest ->
    matches (Re.One cls :: r) (c :: w) rest
| matches_Many lo cls r u w rest :
    (lo <= List.length u)%nat -> Forall (fun c => cls c = true) u ->
    matches r w rest ->
    matches (Re.Many lo cls :: r) (u ++ w) rest
| matches_Ahead items r w rest :
    Re.ahead items (w ++ rest) = true -> matches r w rest ->
    matches (Re.Ahead items :: r) w rest.

(** [m] occurs in [s] as a contiguous substring. *)
Definition infix (m s : str) : Prop := exists pre post, s = pre ++ m ++ post.

(** The number of author lines among [lines]. *)
Definition count_FAU (lines : list str) : nat :=
  List.length (filter (startswith (lit "FAU -")) lines).

(** Where the fields of a row appended by pass 2 come from: the header
    values of the record, an address of the e-mail shape found in one line,
    and the stripped text of an author line. *)
Definition row_from (pmid title : option str) (lines : list str) (r : Row)
  : Prop :=
  PMID r = pmid /\ Title r = title
  /\ email_shape (Email r)
  /\ (exists l, In l lines /\ infix (Email r) l)
  /\ (exists l, In l lines /\ startswith (lit "FAU -") l = true
                /\ Author r = strip (skipn 5 l)).

(** [new] is what one chunk contributes: the header values come from a
    header pass started afresh, and the rows from pass 2 over its lines. *)
Definition chunk_rows (chunk : str) (new : list Row) : Prop :=
  exists pmid title,
    header_pass (splitlines chunk) None None = Ok (pmid, title)
    /\ (forall records, parse_chunk chunk records = Ok (records ++ new))
    /\ Forall (row_from pmid title (splitlines chunk)) new
    /\ (List.length new <= count_FAU (splitlines chunk))%nat.

(** Every field of the row occurs verbatim in [text], and the e-mail has the
    shape of an address. *)
Definition row_in_text (text : str) (r : Row) : Prop :=
  email_shape (Email r)
  /\ infix (Email r) text /\ infix (Author r) text
  /\ (forall p, PMID r = Some p -> infix p text)
  /\ (forall t, Title r = Some t -> infix t text).

(** [f] is one of the fields of the row [r]. *)
Definition field_of (r : Row) (f : str) : Prop :=
  f = Email r \/ f = Author r \/ PMID r = Some f \/ Title r = Some f.

(** * Properties *)

(** ** Strings and tags *)

Lemma startswith_app (p s : str) :
  startswith p s = true -> s = p ++ skipn (List.length p) s.
Proof.
  revert s; induction p as [|a p IH]; intros [|c s] H; simpl in *;
    try reflexivity; try discriminate.
  apply andb_prop in H as [Hc Hs]. apply N.eqb_eq in Hc. subst c.
  f_equal. now apply IH.
Qed.

Lemma split1_tag (tag line : str) :
  In tag tags -> startswith tag line = true ->
  split1 0x2D line = [firstn 4 line; skipn 5 line].
Proof.
  intros Ht H. apply startswith_app in H.
  simpl in Ht.
  repeat (destruct Ht as [<-|Ht]; [rewrite H; reflexivity|]).
  contradiction.
Qed.

Lemma field_value_tag (tag line : str) :
  In tag tags -> startswith tag line = true ->
  field_value line = Ok (strip (skipn 5 line)).
Proof.
  intros Ht H. unfold field_value. now rewrite (split1_tag _ _ Ht H).
Qed.

Lemma in_tags_PMID : In (lit "PMID-") tags. Proof. simpl; auto. Qed.
Lemma in_tags_TI : In (lit "TI  -") tags. Proof. simpl; auto. Qed.
Lemma in_tags_FAU : In (lit "FAU -") tags. Proof. simpl; auto. Qed.
Lemma in_tags_AD : In (lit "AD  -") tags. Proof. simpl; auto. Qed.

Create HintDb tags.
#[local] Hint Resolve in_tags_PMID in_tags_TI in_tags_FAU in_tags_AD : tags.

(** Rewrites [field_value line] under a tag test found in the context. *)
Ltac tag_value :=
  match goal with
  | H : startswith (lit ?t) ?line = true |- context [field_value ?line] =>
      rewrite (field_value_tag (lit t) line ltac:(auto with tags) H)
  end.

(** ** The passes never raise *)

Lemma header_pass_total (lines : list str) (pmid title : option str) :
  exists hd, header_pass lines pmid title = Ok hd.
Proof.
  revert pmid title; induction lines as [|line lines IH]; intros;
    cbn [header_pass].
  - eauto.
  - destruct (startswith (lit "PMID-") line) eqn:Hp.
    + tag_value. cbn [bind]. apply IH.
    + destruct (startswith (lit "TI  -") line) eqn:Ht.
      * tag_value. cbn [bind]. apply IH.
      * apply IH.
Qed.

Lemma aff_text_eq (line : str) (after : list str) :
  startswith (lit "AD  -") line = true ->
  aff_text line after =
  Ok (join (lit " ") (strip (skipn 5 line) :: continuation_lines after)).
Proof. intros H. unfold aff_text. tag_value. reflexivity. Qed.

Lemma affiliation_email_eq (line : str) (after : list str) :
  startswith (lit "AD  -") line = true ->
  affiliation_email line after =
  Ok match Re.search EMAIL_RX
             (join (lit " ") (strip (skipn 5 line) :: continuation_lines after))
     with
     | Some m => snd m
     | None => []
     end.
Proof.
  intros H. unfold affiliation_email. rewrite (aff_text_eq _ _ H). cbn [bind].
  now destruct Re.search.
Qed.

Lemma look_ahead_total (from_j : list str) : exists email, look_ahead from_j = Ok email.
Proof.
  induction from_j as [|line rest IH]; cbn [look_ahead].
  - eauto.
  - destruct (startswith (lit "AD  -") line) eqn:Ha.
    + rewrite (affiliation_email_eq _ _ Ha). eauto.
    + destruct (startswith (lit "FAU -") line); eauto.
Qed.

(** What pass 2 appends, as a function of the lines alone. *)
Lemma author_pass_appends (pmid title : option str) (from_i : list str) :
  exists new,
    (forall records, author_pass pmid title from_i records = Ok (records ++ new))
    /\ Forall (fun r => PMID r = pmid /\ Title r = title /\ Email r <> []) new.
Proof.
  induction from_i as [|line rest (new & IH & Hnew)]; cbn [author_pass].
  - exists []. split; [intros; now rewrite app_nil_r | constructor].
  - destruct (startswith (lit "FAU -") line) eqn:Hf.
    + tag_value. cbn [bind].
      destruct (look_ahead_total rest) as [email ->]. cbn [bind].
      destruct email as [|c email].
      * exists new. auto.
      * exists (mkRow pmid title (strip (skipn 5 line)) (c :: email) :: new).
        split.
        -- intros. rewrite IH, <- app_assoc. reflexivity.
        -- constructor; [cbn; repeat split; discriminate | assumption].
    + exists new. auto.
Qed.

Lemma parse_chunk_appends (chunk : str) :
  exists new,
    (forall records, parse_chunk chunk records = Ok (records ++ new))
    /\ Forall (fun r => Email r <> []) new.
Proof.
  unfold parse_chunk.
  destruct (header_pass_total (splitlines chunk) None None) as [[pmid title] ->].
  cbn [bind fst snd].
  destruct (author_pass_appends pmid title (splitlines chunk)) as (new & H & Hn).
  exists new. split; [assumption|].
  eapply Forall_impl; [|exact Hn]. cbn beta. tauto.
Qed.

Lemma parse_chunks_appends (chunks : list str) :
  exists new,
    (forall records, parse_chunks chunks records = Ok (records ++ new))
    /\ Forall (fun r => Email r <> []) new.
Proof.
  induction chunks as [|chunk chunks (new & IH & Hn)]; cbn [parse_chunks].
  - exists []. split; [intros; now rewrite app_nil_r | constructor].
  - destruct (parse_chunk_appends chunk) as (new1 & H1 & Hn1).
    exists (new1 ++ new). split.
    + intros. rewrite H1. cbn [bind]. rewrite IH. now rewrite app_assoc.
    + apply Forall_app; auto.
Qed.

Lemma parse_total (text : str) :
  exists rows, parse_medline_text text = Ok rows /\ Forall (fun r => Email r <> []) rows.
Proof.
  unfold parse_medline_text.
  destruct (parse_chunks_appends (Re.split RECORD_SEP (strip text))) as (new & H & Hn).
  exists new. rewrite H. auto.
Qed.

Lemma extend_all_total (texts : list str) :
  exists rowss,
    Forall2 (fun t rows => parse_medline_text t = Ok rows) texts rowss
    /\ forall all_records,
         extend_all texts all_records = Ok (all_records ++ List.concat rowss).
Proof.
  induction texts as [|t texts (rowss & HF & IH)]; cbn [extend_all].
  - exists []. split; [constructor | intros; now rewrite app_nil_r].
  - destruct (parse_total t) as (rows & Hr & _).
    exists (rows :: rowss). split; [now constructor|].
    intros. rewrite Hr. cbn [bind List.concat]. rewrite IH. now rewrite app_assoc.
Qed.

(** ** C7: the parser is total *)

(** C7. For every input string [parse_medline_text] returns a list of rows and
    raises nothing.  At a line that passed one of the four prefix tests,
    [line.split('-', 1)] has two elements, so the index [1] is in range and the
    field is the stripped text after the dash; a tag with nothing after its
    dash gives the empty string. *)
Theorem parse_medline_text_never_raises :
  (forall text, exists rows, parse_medline_text text = Ok rows)
  /\ (forall tag line,
        In tag tags -> startswith tag line = true ->
        exists before after,
          split1 0x2D line = [before; after]
          /\ index (split1 0x2D line) 1 = Ok after
          /\ field_value line = Ok (strip after))
  /\ Forall (fun tag => field_value tag = Ok []) tags.
Proof.
  split; [|split].
  - intros text. destruct (parse_total text) as (rows & H & _). eauto.
  - intros tag line Ht H.
    exists (firstn 4 line), (skipn 5 line).
    rewrite (field_value_tag _ _ Ht H), (split1_tag _ _ Ht H). auto.
  - repeat constructor.
Qed.

Lemma parse_medline_text_never_raises_witness :
  In (lit "TI  -") tags
  /\ startswith (lit "TI  -") (lit "TI  -") = true
  /\ (exists before after,
        split1 0x2D (lit "TI  -") = [before; after]
        /\ index (split1 0x2D (lit "TI  -")) 1 = Ok after
        /\ field_value (lit "TI  -") = Ok (strip after))
  /\ exists rows,
       parse_medline_text (text_of ["PMID-"; "TI  -"; "FAU -"; "AD  -"]) = Ok rows.
Proof.
  split; [simpl; auto|]. split; [reflexivity|]. split.
  - apply (proj1 (proj2 parse_medline_text_never_raises) (lit "TI  -"));
      [simpl; auto | reflexivity].
  - apply (proj1 parse_medline_text_never_raises).
Defined.

(** ** The look-ahead for the affiliation block *)

Lemma look_ahead_skip (skipped rest : list str) :
  Forall passed_over skipped -> look_ahead (skipped ++ rest) = look_ahead rest.
Proof.
  induction 1 as [|line skipped [Ha Hf] _ IH]; cbn [app look_ahead].
  - reflexivity.
  - now rewrite Ha, Hf.
Qed.

Lemma look_ahead_at_AD (line : str) (after : list str) :
  startswith (lit "AD  -") line = true ->
  look_ahead (line :: after) = affiliation_email line after.
Proof. intros H. cbn [look_ahead]. now rewrite H. Qed.

Lemma look_ahead_at_FAU (line : str) (after : list str) :
  startswith (lit "AD  -") line = false ->
  startswith (lit "FAU -") line = true ->
  look_ahead (line :: after) = Ok [].
Proof. intros Ha Hf. cbn [look_ahead]. now rewrite Ha, Hf. Qed.

Lemma look_ahead_no_AD (rest : list str) :
  Forall (fun l => startswith (lit "AD  -") l = false) rest ->
  look_ahead rest = Ok [].
Proof.
  induction 1 as [|line rest Ha _ IH]; cbn [look_ahead].
  - reflexivity.
  - rewrite Ha. now destruct (startswith (lit "FAU -") line).
Qed.

Lemma affiliation_email_no_match (line : str) (after : list str) (text : str) :
  aff_text line after = Ok text -> Re.search EMAIL_RX text = None ->
  affiliation_email line after = Ok [].
Proof.
  intros Ht Hs. unfold affiliation_email. rewrite Ht. cbn [bind]. now rewrite Hs.
Qed.

Lemma author_pass_no_email (pmid title : option str) (line : str)
  (rest : list str) (records : list Row) :
  startswith (lit "FAU -") line = true -> look_ahead rest = Ok [] ->
  author_pass pmid title (line :: rest) records
  = author_pass pmid title rest records.
Proof.
  intros Hf He. cbn [author_pass]. rewrite Hf. tag_value. cbn [bind].
  now rewrite He.
Qed.

Lemma author_pass_email (pmid title : option str) (line : str)
  (rest : list str) (records : list Row) (c : char) (email : str) :
  startswith (lit "FAU -") line = true -> look_ahead rest = Ok (c :: email) ->
  author_pass pmid title (line :: rest) records
  = author_pass pmid title rest
      (records ++ [mkRow pmid title (strip (skipn 5 line)) (c :: email)]).
Proof.
  intros Hf He. cbn [author_pass]. rewrite Hf. tag_value. cbn [bind].
  now rewrite He.
Qed.

(** ** C10: only the first affiliation block is examined *)

(** C10. When the first ['AD  -'] line after an author line (with only lines
    that are neither ['AD  -'] nor ['FAU -'] in between) opens a block whose
    joined text has no match of [EMAIL_RX], the look-ahead ends there with
    [email] empty and the author line appends no row, whatever follows the
    block: a later ['AD  -'] line with an address is never read for this
    author. *)
Theorem first_affiliation_block_only
  (pmid title : option str) (fau : str) (skipped : list str) (ad : str)
  (after : list str) (text : str) (records : list Row) :
  startswith (lit "FAU -") fau = true ->
  Forall passed_over skipped ->
  startswith (lit "AD  -") ad = true ->
  aff_text ad after = Ok text ->
  Re.search EMAIL_RX text = None ->
  look_ahead (skipped ++ ad :: after) = Ok []
  /\ author_pass pmid title (fau :: skipped ++ ad :: after) records
     = author_pass pmid title (skipped ++ ad :: after) records.
Proof.
  intros Hf Hs Ha Ht Hn.
  assert (He : look_ahead (skipped ++ ad :: after) = Ok []).
  { rewrite (look_ahead_skip _ _ Hs), (look_ahead_at_AD _ _ Ha).
    exact (affiliation_email_no_match _ _ _ Ht Hn). }
  split; [exact He|]. now apply author_pass_no_email.
Qed.

Lemma first_affiliation_block_only_witness :
  let fau := lit "FAU - Doe A" in
  let la := lit "LA  - eng" in
  let ad := lit "AD  - Dept of Y," in
  let after := [lit "      City"; lit "AD  - adoe@uni.edu"] in
  startswith (lit "FAU -") fau = true
  /\ Forall passed_over [la]
  /\ startswith (lit "AD  -") ad = true
  /\ aff_text ad after = Ok (lit "Dept of Y, City")
  /\ Re.search EMAIL_RX (lit "Dept of Y, City") = None
  /\ look_ahead ([la] ++ ad :: after) = Ok []
  /\ author_pass (Some (lit "1")) None (fau :: [la] ++ ad :: after) []
     = author_pass (Some (lit "1")) None ([la] ++ ad :: after) [].
Proof.
  intros fau la ad after.
  assert (Hf : startswith (lit "FAU -") fau = true) by reflexivity.
  assert (Hp : Forall passed_over [la]) by (repeat constructor).
  assert (Ha : startswith (lit "AD  -") ad = true) by reflexivity.
  assert (Ht : aff_text ad after = Ok (lit "Dept of Y, City"))
    by (vm_compute; reflexivity).
  assert (Hs : Re.search EMAIL_RX (lit "Dept of Y, City") = None)
    by (vm_compute; reflexivity).
  exact (conj Hf (conj Hp (conj Ha (conj Ht (conj Hs
           (first_affiliation_block_only (Some (lit "1")) None fau [la] ad
              after _ [] Hf Hp Ha Ht Hs)))))).
Defined.

(** ** C2: where the look-ahead stops *)

(** C2, as stated, fails: a ['LA  -'] line between the author line and the
    ['AD  -'] line does not stop the scan; the address is found and the row is
    produced.  So it is not true that a line that is neither an ['AD  -'] line
    nor a continuation leaves [email] empty. *)
Lemma other_line_does_not_stop_look_ahead :
  parse_medline_text
    (text_of ["PMID- 1"; "FAU - Smith J"; "LA  - eng";
              "AD  - Dept of X. jsmith@uni.edu"])
  = Ok [mkRow (Some (lit "1")) None (lit "Smith J") (lit "jsmith@uni.edu")]
  /\ look_ahead [lit "LA  - eng"; lit "AD  - Dept of X. jsmith@uni.edu"]
     = Ok (lit "jsmith@uni.edu")
  /\ ~ (forall other rest,
          startswith (lit "AD  -") other = false ->
          startswith (lit " ") other = false ->
          look_ahead (other :: rest) = Ok []).
Proof.
  split; [vm_compute; reflexivity|].
  assert (E : look_ahead [lit "LA  - eng"; lit "AD  - Dept of X. jsmith@uni.edu"]
              = Ok (lit "jsmith@uni.edu")) by (vm_compute; reflexivity).
  split; [exact E|]. intros H.
  rewrite (H (lit "LA  - eng") [lit "AD  - Dept of X. jsmith@uni.edu"]
             eq_refl eq_refl) in E.
  discriminate E.
Qed.

(** C2, amended. The look-ahead passes over every line that starts neither
    with ['AD  -'] nor with ['FAU -'].  It stops at the first ['AD  -'] line,
    whose block gives [email], or at the first ['FAU -'] line or the end of
    the record, with [email] empty. *)
Theorem look_ahead_stops_at_AD_or_FAU (skipped : list str) :
  Forall passed_over skipped ->
  look_ahead skipped = Ok []
  /\ (forall line after,
        startswith (lit "AD  -") line = true ->
        look_ahead (skipped ++ line :: after) = affiliation_email line after)
  /\ (forall line after,
        startswith (lit "AD  -") line = false ->
        startswith (lit "FAU -") line = true ->
        look_ahead (skipped ++ line :: after) = Ok []).
Proof.
  intros Hs. split; [|split].
  - rewrite <- (app_nil_r skipped). now rewrite (look_ahead_skip _ _ Hs).
  - intros line after Ha.
    now rewrite (look_ahead_skip _ _ Hs), (look_ahead_at_AD _ _ Ha).
  - intros line after Ha Hf.
    now rewrite (look_ahead_skip _ _ Hs), (look_ahead_at_FAU _ _ Ha Hf).
Qed.

Lemma look_ahead_stops_at_AD_or_FAU_witness :
  let skipped := [lit "LA  - eng"; lit "      continued"; lit ""] in
  let ad := lit "AD  - Dept of X. jsmith@uni.edu" in
  let fau := lit "FAU - Doe A" in
  Forall passed_over skipped
  /\ startswith (lit "AD  -") ad = true
  /\ startswith (lit "AD  -") fau = false
  /\ startswith (lit "FAU -") fau = true
  /\ look_ahead skipped = Ok []
  /\ look_ahead (skipped ++ ad :: [fau]) = affiliation_email ad [fau]
  /\ look_ahead (skipped ++ fau :: [ad]) = Ok [].
Proof.
  intros skipped ad fau.
  assert (Hp : Forall passed_over skipped) by (repeat constructor).
  assert (Ha : startswith (lit "AD  -") ad = true) by reflexivity.
  assert (Hn : startswith (lit "AD  -") fau = false) by reflexivity.
  assert (Hf : startswith (lit "FAU -") fau = true) by reflexivity.
  destruct (look_ahead_stops_at_AD_or_FAU skipped Hp) as (H1 & H2 & H3).
  exact (conj Hp (conj Ha (conj Hn (conj Hf (conj H1
           (conj (H2 ad [fau] Ha) (H3 fau [ad] Hn Hf))))))).
Defined.

(** ** C5: continuation lines *)

Lemma startswith_space (line : str) :
  startswith (lit " ") line = true <-> exists rest, line = 0x20 :: rest.
Proof.
  destruct line as [|c rest]; cbn.
  - split; [discriminate | intros [r H]; discriminate].
  - rewrite andb_true_r, N.eqb_eq. split.
    + intros ->. eauto.
    + intros [r H]. now inversion H.
Qed.

Lemma continuation_lines_block (conts rest : list str) :
  Forall (fun l => startswith (lit " ") l = true) conts ->
  match rest with
  | [] => True
  | l :: _ => startswith (lit " ") l = false
  end ->
  continuation_lines (conts ++ rest) = map strip conts.
Proof.
  intros Hc Hr. induction Hc as [|l conts Hl _ IH]; cbn [app map continuation_lines].
  - destruct rest as [|l rest]; [reflexivity|]. cbn [continuation_lines].
    now rewrite Hr.
  - now rewrite Hl, IH.
Qed.

(** C5, as stated, fails: a line indented by a tab begins with whitespace
    and is not taken as a continuation, so the address on it is lost. *)
Lemma tab_is_not_a_continuation :
  parse_medline_text
    (join [0x0A] [lit "FAU - Doe A"; lit "AD  - Dept of Y,";
                  0x09 :: lit "adoe@uni.edu"])
  = Ok []
  /\ aff_text (lit "AD  - Dept of Y,") [0x09 :: lit "adoe@uni.edu"]
     = Ok (lit "Dept of Y,")
  /\ ~ (forall c line rest,
          isspace c = true ->
          continuation_lines ((c :: line) :: rest)
          = strip (c :: line) :: continuation_lines rest).
Proof.
  split; [vm_compute; reflexivity|]. split; [vm_compute; reflexivity|].
  intros H. specialize (H 0x09 (lit "adoe@uni.edu") [] eq_refl).
  discriminate H.
Qed.

(** C5, amended. The lines appended to an affiliation block are the lines
    that follow the ['AD  -'] line up to the first one that does not begin
    with the space character U+0020 (or the end of the record); each is
    stripped and the block is joined with single spaces.  A line that begins
    with any other whitespace character ends the block. *)
Theorem continuation_is_a_leading_space :
  (forall line,
      startswith (lit " ") line = true <-> exists rest, line = 0x20 :: rest)
  /\ (forall ad conts rest,
        startswith (lit "AD  -") ad = true ->
        Forall (fun l => exists r, l = 0x20 :: r) conts ->
        match rest with
        | [] => True
        | l :: _ => forall r, l <> 0x20 :: r
        end ->
        continuation_lines (conts ++ rest) = map strip conts
        /\ aff_text ad (conts ++ rest)
           = Ok (join (lit " ") (strip (skipn 5 ad) :: map strip conts))).
Proof.
  split; [exact startswith_space|].
  intros ad conts rest Ha Hc Hr.
  assert (E : continuation_lines (conts ++ rest) = map strip conts).
  { apply continuation_lines_block.
    - eapply Forall_impl; [|exact Hc]. intros l. apply startswith_space.
    - destruct rest as [|l rest]; [exact I|].
      destruct (startswith (lit " ") l) eqn:El; [|reflexivity].
      apply startswith_space in El as [r ->]. now elim (Hr r). }
  split; [exact E|]. now rewrite (aff_text_eq _ _ Ha), E.
Qed.

Lemma continuation_is_a_leading_space_witness :
  let ad := lit "AD  - Dept of Y," in
  let conts := [lit "      City,"; lit "  adoe@uni.edu  "] in
  let rest := [0x09 :: lit "more"; lit " late"] in
  startswith (lit "AD  -") ad = true
  /\ Forall (fun l => exists r, l = 0x20 :: r) conts
  /\ (forall r, 0x09 :: lit "more" <> 0x20 :: r)
  /\ continuation_lines (conts ++ rest) = map strip conts
  /\ aff_text ad (conts ++ rest)
     = Ok (join (lit " ") (strip (skipn 5 ad) :: map strip conts)).
Proof.
  intros ad conts rest.
  assert (Ha : startswith (lit "AD  -") ad = true) by reflexivity.
  assert (Hc : Forall (fun l => exists r, l = 0x20 :: r) conts).
  { repeat constructor; eexists; reflexivity. }
  assert (Hr : forall r, 0x09 :: lit "more" <> 0x20 :: r) by (intros r; discriminate).
  exact (conj Ha (conj Hc (conj Hr
           (proj2 continuation_is_a_leading_space ad conts rest Ha Hc Hr)))).
Defined.

(** ** C1: which header line supplies the identifier and the title *)

Lemma header_pass_app (pre post : list str) (pmid title : option str) :
  header_pass (pre ++ post) pmid title
  = (hd <- header_pass pre pmid title ;; header_pass post (fst hd) (snd hd)).
Proof.
  revert pmid title; induction pre as [|line pre IH]; intros;
    cbn [app header_pass].
  - reflexivity.
  - destruct (startswith (lit "PMID-") line) eqn:Hp.
    + tag_value. cbn [bind]. apply IH.
    + destruct (startswith (lit "TI  -") line) eqn:Ht.
      * tag_value. cbn [bind]. apply IH.
      * apply IH.
Qed.

Lemma header_pass_keeps_pmid (post : list str) (pmid title : option str) :
  Forall (fun l => startswith (lit "PMID-") l = false) post ->
  exists title', header_pass post pmid title = Ok (pmid, title').
Proof.
  intros H; revert title; induction H as [|line post Hp _ IH]; intros;
    cbn [header_pass].
  - eauto.
  - rewrite Hp. destruct (startswith (lit "TI  -") line) eqn:Ht.
    + tag_value. cbn [bind]. apply IH.
    + apply IH.
Qed.

Lemma header_pass_keeps_title (post : list str) (pmid title : option str) :
  Forall (fun l => startswith (lit "TI  -") l = false) post ->
  exists pmid', header_pass post pmid title = Ok (pmid', title).
Proof.
  intros H; revert pmid; induction H as [|line post Ht _ IH]; intros;
    cbn [header_pass].
  - eauto.
  - destruct (startswith (lit "PMID-") line) eqn:Hp.
    + tag_value. cbn [bind]. apply IH.
    + rewrite Ht. apply IH.
Qed.

Lemma startswith_TI_not_PMID (line : str) :
  startswith (lit "TI  -") line = true -> startswith (lit "PMID-") line = false.
Proof.
  intros H. apply startswith_app in H. rewrite H. reflexivity.
Qed.

(** C1, as stated, fails: with two title lines and two identifier lines in
    one record, the row carries the values of the last of each, so it is not
    true that the rows of a record take the value of its first ['TI  -'] (or
    ['PMID-']) line. *)
Lemma first_header_line_does_not_win :
  parse_medline_text
    (text_of ["PMID- 1"; "PMID-2"; "TI  - First title"; "TI  - Second title";
              "FAU - Smith J"; "AD  - jsmith@uni.edu"])
  = Ok [mkRow (Some (lit "2")) (Some (lit "Second title")) (lit "Smith J")
              (lit "jsmith@uni.edu")]
  /\ ~ (forall chunk pre line post new,
          splitlines chunk = pre ++ line :: post ->
          Forall (fun l => startswith (lit "TI  -") l = false) pre ->
          startswith (lit "TI  -") line = true ->
          parse_chunk chunk [] = Ok new ->
          Forall (fun r => Title r = Some (strip (skipn 5 line))) new)
  /\ ~ (forall chunk pre line post new,
          splitlines chunk = pre ++ line :: post ->
          Forall (fun l => startswith (lit "PMID-") l = false) pre ->
          startswith (lit "PMID-") line = true ->
          parse_chunk chunk [] = Ok new ->
          Forall (fun r => PMID r = Some (strip (skipn 5 line))) new).
Proof.
  split; [vm_compute; reflexivity|].
  pose (chunk := text_of ["PMID- 1"; "PMID-2"; "TI  - First title";
                          "TI  - Second title"; "FAU - Smith J";
                          "AD  - jsmith@uni.edu"]).
  pose (row := mkRow (Some (lit "2")) (Some (lit "Second title"))
                     (lit "Smith J") (lit "jsmith@uni.edu")).
  assert (P : parse_chunk chunk [] = Ok [row]) by (vm_compute; reflexivity).
  split; intros H.
  - specialize (H chunk [lit "PMID- 1"; lit "PMID-2"] (lit "TI  - First title")
                  [lit "TI  - Second title"; lit "FAU - Smith J";
                   lit "AD  - jsmith@uni.edu"] [row]).
    assert (F : Forall (fun r => Title r = Some (lit "First title")) [row]).
    { apply H; [vm_compute; reflexivity | repeat constructor | reflexivity
               | exact P]. }
    inversion F as [|? ? Hr _]. discriminate Hr.
  - specialize (H chunk [] (lit "PMID- 1")
                  [lit "PMID-2"; lit "TI  - First title";
                   lit "TI  - Second title"; lit "FAU - Smith J";
                   lit "AD  - jsmith@uni.edu"] [row]).
    assert (F : Forall (fun r => PMID r = Some (lit "1")) [row]).
    { apply H; [vm_compute; reflexivity | constructor | reflexivity | exact P]. }
    inversion F as [|? ? Hr _]. discriminate Hr.
Qed.

(** C1, amended. For a record with several ['PMID-'] lines or several
    ['TI  -'] lines, the identifier and the title of every row produced from
    that record come from the last such line in scan order: each matching
    line of the header pass overwrites the value of the one before. *)
Theorem last_header_line_wins (chunk : str) (pre : list str) (line : str)
  (post : list str) :
  splitlines chunk = pre ++ line :: post ->
  exists new,
    (forall records, parse_chunk chunk records = Ok (records ++ new))
    /\ (startswith (lit "PMID-") line = true ->
        Forall (fun l => startswith (lit "PMID-") l = false) post ->
        Forall (fun r => PMID r = Some (strip (skipn 5 line))) new)
    /\ (startswith (lit "TI  -") line = true ->
        Forall (fun l => startswith (lit "TI  -") l = false) post ->
        Forall (fun r => Title r = Some (strip (skipn 5 line))) new).
Proof.
  intros Hl. unfold parse_chunk. cbv zeta.
  destruct (header_pass_total (splitlines chunk) None None) as [[pmid title] Hh].
  rewrite Hh. cbn [bind fst snd].
  rewrite Hl, header_pass_app in Hh.
  destruct (header_pass_total pre None None) as [[p0 t0] Hpre].
  rewrite Hpre in Hh. cbn [bind fst snd] in Hh.
  destruct (author_pass_appends pmid title (splitlines chunk)) as (new & Hn & Hf).
  exists new. split; [exact Hn|]. split.
  - intros Hp Hpost. cbn [header_pass] in Hh. rewrite Hp in Hh.
    rewrite (field_value_tag _ _ in_tags_PMID Hp) in Hh. cbn [bind] in Hh.
    destruct (header_pass_keeps_pmid post (Some (strip (skipn 5 line))) t0 Hpost)
      as [t' Ht'].
    rewrite Ht' in Hh. injection Hh as <- <-.
    eapply Forall_impl; [|exact Hf]. cbn beta. tauto.
  - intros Ht Hpost. cbn [header_pass] in Hh.
    rewrite (startswith_TI_not_PMID _ Ht), Ht in Hh.
    rewrite (field_value_tag _ _ in_tags_TI Ht) in Hh. cbn [bind] in Hh.
    destruct (header_pass_keeps_title post p0 (Some (strip (skipn 5 line))) Hpost)
      as [p' Hp'].
    rewrite Hp' in Hh. injection Hh as <- <-.
    eapply Forall_impl; [|exact Hf]. cbn beta. tauto.
Qed.

Lemma last_header_line_wins_witness :
  let chunk :=
    text_of ["PMID- 1"; "PMID-2"; "TI  - First title"; "TI  - Second title";
             "FAU - Smith J"; "AD  - jsmith@uni.edu"] in
  let fau := lit "FAU - Smith J" in
  let ad := lit "AD  - jsmith@uni.edu" in
  let ti1 := lit "TI  - First title" in
  let ti2 := lit "TI  - Second title" in
  splitlines chunk = [lit "PMID- 1"] ++ lit "PMID-2" :: [ti1; ti2; fau; ad]
  /\ splitlines chunk = [lit "PMID- 1"; lit "PMID-2"; ti1] ++ ti2 :: [fau; ad]
  /\ startswith (lit "PMID-") (lit "PMID-2") = true
  /\ Forall (fun l => startswith (lit "PMID-") l = false) [ti1; ti2; fau; ad]
  /\ startswith (lit "TI  -") ti2 = true
  /\ Forall (fun l => startswith (lit "TI  -") l = false) [fau; ad]
  /\ (exists new,
        (forall records, parse_chunk chunk records = Ok (records ++ new))
        /\ Forall (fun r => PMID r = Some (strip (skipn 5 (lit "PMID-2")))) new)
  /\ (exists new,
        (forall records, parse_chunk chunk records = Ok (records ++ new))
        /\ Forall (fun r => Title r = Some (strip (skipn 5 ti2))) new).
Proof.
  intros chunk fau ad ti1 ti2.
  assert (L1 : splitlines chunk
               = [lit "PMID- 1"] ++ lit "PMID-2" :: [ti1; ti2; fau; ad])
    by (vm_compute; reflexivity).
  assert (L2 : splitlines chunk
               = [lit "PMID- 1"; lit "PMID-2"; ti1] ++ ti2 :: [fau; ad])
    by (vm_compute; reflexivity).
  assert (P1 : startswith (lit "PMID-") (lit "PMID-2") = true) by reflexivity.
  assert (P2 : Forall (fun l => startswith (lit "PMID-") l = false)
                 [ti1; ti2; fau; ad]) by (repeat constructor).
  assert (T1 : startswith (lit "TI  -") ti2 = true) by reflexivity.
  assert (T2 : Forall (fun l => startswith (lit "TI  -") l = false) [fau; ad])
    by (repeat constructor).
  refine (conj L1 (conj L2 (conj P1 (conj P2 (conj T1 (conj T2 (conj _ _))))))).
  - destruct (last_header_line_wins chunk _ _ _ L1) as (new & Hn & Hp & _).
    exists new. exact (conj Hn (Hp P1 P2)).
  - destruct (last_header_line_wins chunk _ _ _ L2) as (new & Hn & _ & Ht).
    exists new. exact (conj Hn (Ht T1 T2)).
Defined.

(** ** C9: nothing found *)

Lemma author_pass_no_rows (pmid title : option str) (lines : list str)
  (records : list Row) :
  no_author_email lines -> author_pass pmid title lines records = Ok records.
Proof.
  induction lines as [|line rest IH]; intros H.
  - reflexivity.
  - assert (Hrest : no_author_email rest).
    { intros pre l r E. apply (H (line :: pre) l r). now rewrite E. }
    destruct (startswith (lit "FAU -") line) eqn:Hf.
    + rewrite <- (IH Hrest). apply author_pass_no_email; [exact Hf|].
      now apply (H [] line rest).
    + cbn [author_pass]. rewrite Hf. now apply IH.
Qed.

Lemma parse_chunks_no_rows (chunks : list str) (records : list Row) :
  (forall chunk, In chunk chunks -> no_author_email (splitlines chunk)) ->
  parse_chunks chunks records = Ok records.
Proof.
  induction chunks as [|chunk chunks IH]; intros H; cbn [parse_chunks].
  - reflexivity.
  - unfold parse_chunk. cbv zeta.
    destruct (header_pass_total (splitlines chunk) None None) as [hd ->].
    cbn [bind]. rewrite author_pass_no_rows by (apply H; now left).
    cbn [bind]. apply IH. intros c Hc. apply H. now right.
Qed.

Lemma script_total (uploaded_files : list str) :
  exists rowss,
    Forall2 (fun t rows => parse_medline_text t = Ok rows) uploaded_files rowss
    /\ script uploaded_files
       = Ok match uploaded_files, List.concat rowss with
            | [], _ => Nothing
            | _ :: _, [] => Warning
            | _ :: _, (_ :: _) as all_records =>
                Success (Pd.drop_duplicates subset subset_eq_dec all_records)
            end.
Proof.
  destruct (extend_all_total uploaded_files) as (rowss & HF & He).
  exists rowss. split; [exact HF|].
  unfold script. destruct uploaded_files as [|t ts]; [reflexivity|].
  rewrite He. cbn [bind app]. now destruct (List.concat rowss).
Qed.

Lemma concat_all_nil {A} (ls : list (list A)) :
  Forall (fun l => l = []) ls -> List.concat ls = [].
Proof. induction 1 as [|l ls -> _ IH]; [reflexivity | exact IH]. Qed.

(** C9. Empty text parses to no rows, and so does every text in which no
    author line finds an e-mail; nothing is raised.  When files were uploaded
    and none gives a row, the script raises nothing and takes the branch of
    the warning; the table built in the other branch is never empty. *)
Theorem nothing_found_is_a_warning :
  parse_medline_text [] = Ok []
  /\ (forall text,
        (forall chunk, In chunk (Re.split RECORD_SEP (strip text)) ->
                       no_author_email (splitlines chunk)) ->
        parse_medline_text text = Ok [])
  /\ (forall uploaded_files,
        uploaded_files <> [] ->
        Forall (fun t => parse_medline_text t = Ok []) uploaded_files ->
        script uploaded_files = Ok Warning)
  /\ (forall uploaded_files df,
        script uploaded_files = Ok (Success df) -> df <> []).
Proof.
  split; [reflexivity|]. split; [|split].
  - intros text H. unfold parse_medline_text. cbv zeta.
    now apply parse_chunks_no_rows.
  - intros fs Hne Hall. destruct (script_total fs) as (rowss & HF & ->).
    destruct fs as [|t ts]; [now elim Hne|].
    rewrite concat_all_nil; [reflexivity|].
    clear Hne. induction HF as [|x rows xs rowss Hx _ IH]; constructor.
    + inversion Hall; subst. congruence.
    + apply IH. now inversion Hall.
  - intros fs df. destruct (script_total fs) as (rowss & _ & ->).
    destruct fs as [|t ts]; [discriminate|].
    destruct (List.concat rowss) as [|r rs]; [discriminate|].
    intros [= <-]. discriminate.
Qed.

Lemma nothing_found_is_a_warning_witness :
  let text := text_of ["PMID- 7"; "TI  - T"; "FAU - Doe A"; "AD  - Dept of Y";
                       "FAU - Roe B"] in
  (forall chunk, In chunk (Re.split RECORD_SEP (strip text)) ->
                 no_author_email (splitlines chunk))
  /\ [[]; text] <> []
  /\ Forall (fun t => parse_medline_text t = Ok []) [[]; text]
  /\ parse_medline_text text = Ok []
  /\ script [[]; text] = Ok Warning.
Proof.
  intros text.
  assert (H1 : forall chunk, In chunk (Re.split RECORD_SEP (strip text)) ->
                             no_author_email (splitlines chunk)).
  { intros chunk [<-|[]] pre line rest E Hf.
    change (splitlines (strip text))
      with [lit "PMID- 7"; lit "TI  - T"; lit "FAU - Doe A";
            lit "AD  - Dept of Y"; lit "FAU - Roe B"] in E.
    destruct pre as [|? [|? [|? [|? [|? [|? pre]]]]]]; inversion E; subst;
      try discriminate Hf; try reflexivity. }
  assert (H2 : [[]; text] <> []) by discriminate.
  destruct nothing_found_is_a_warning as (P0 & Pt & Pw & _).
  pose proof (Pt text H1) as H3.
  assert (H4 : Forall (fun t => parse_medline_text t = Ok []) [[]; text])
    by (repeat constructor; assumption).
  exact (conj H1 (conj H2 (conj H4 (conj H3 (Pw _ H2 H4))))).
Defined.

(** ** C3: duplicates *)

Section DropDuplicatesFacts.
Context {R K : Type} (key : R -> K).
Context (key_eq_dec : forall a b : K, {a = b} + {a <> b}).

Lemma if_in_dec_ext {A} (k : K) (l1 l2 : list K) (a b : A) :
  (In k l1 <-> In k l2) ->
  (if in_dec key_eq_dec k l1 then a else b)
  = (if in_dec key_eq_dec k l2 then a else b).
Proof.
  intros H. destruct (in_dec key_eq_dec k l1), (in_dec key_eq_dec k l2);
    tauto.
Qed.

Lemma drop_from_snoc (seen : list K) (rows : list R) (r : R) :
  Pd.drop_from key key_eq_dec seen (rows ++ [r])
  = Pd.drop_from key key_eq_dec seen rows
    ++ (if in_dec key_eq_dec (key r) (map key rows ++ seen) then [] else [r]).
Proof.
  revert seen; induction rows as [|x rows IH]; intros seen;
    cbn [app map Pd.drop_from].
  - now destruct (in_dec key_eq_dec (key r) seen).
  - destruct (in_dec key_eq_dec (key x) seen) as [Hx|Hx].
    + rewrite IH. f_equal. apply if_in_dec_ext. cbn [In].
      rewrite !in_app_iff. split; [tauto|]. intros [<-|H]; tauto.
    + cbn [app]. rewrite IH. f_equal. f_equal. apply if_in_dec_ext. cbn [In].
      rewrite !in_app_iff. cbn [In]. tauto.
Qed.

Lemma drop_from_fresh (seen : list K) (rows : list R) :
  NoDup (map key (Pd.drop_from key key_eq_dec seen rows))
  /\ forall r, In r (Pd.drop_from key key_eq_dec seen rows) ->
               ~ In (key r) seen.
Proof.
  revert seen; induction rows as [|x rows IH]; intros seen; cbn [Pd.drop_from].
  - split; [constructor | intros r []].
  - destruct (in_dec key_eq_dec (key x) seen) as [Hx|Hx]; [apply IH|].
    destruct (IH (key x :: seen)) as [Hnd Hfresh]. split.
    + cbn [map]. constructor; [|exact Hnd].
      intros Hin. apply in_map_iff in Hin as (r & Hk & Hr).
      apply (Hfresh r Hr). left. now symmetry.
    + intros r [<-|Hr]; [exact Hx|].
      intros Hs. apply (Hfresh r Hr). now right.
Qed.

Lemma drop_from_app (seen : list K) (l1 l2 : list R) :
  Pd.drop_from key key_eq_dec seen (l1 ++ l2)
  = Pd.drop_from key key_eq_dec seen l1
    ++ Pd.drop_from key key_eq_dec
         (rev (map key (Pd.drop_from key key_eq_dec seen l1)) ++ seen) l2.
Proof.
  revert seen; induction l1 as [|x l1 IH]; intros seen; cbn [app Pd.drop_from].
  - reflexivity.
  - destruct (in_dec key_eq_dec (key x) seen) as [Hx|Hx]; [apply IH|].
    cbn [map rev app]. rewrite IH, <- app_assoc. reflexivity.
Qed.

Lemma drop_from_incl (seen : list K) (rows : list R) :
  incl (Pd.drop_from key key_eq_dec seen rows) rows.
Proof.
  revert seen; induction rows as [|x rows IH]; intros seen; cbn [Pd.drop_from].
  - apply incl_refl.
  - destruct (in_dec key_eq_dec (key x) seen).
    + apply incl_tl, IH.
    + apply incl_cons; [now left | apply incl_tl, IH].
Qed.

Lemma NoDup_map_nth_error (l : list R) (i j : nat) (r1 r2 : R) :
  NoDup (map key l) ->
  nth_error l i = Some r1 -> nth_error l j = Some r2 ->
  key r1 = key r2 -> i = j.
Proof.
  intros Hnd H1 H2 Hk.
  apply (proj1 (NoDup_nth_error (map key l)) Hnd).
  - rewrite length_map. apply nth_error_Some. now rewrite H1.
  - rewrite !nth_error_map, H1, H2. cbn. now rewrite Hk.
Qed.

End DropDuplicatesFacts.

(** C3. The table shown is [drop_duplicates] of the rows of all files, in
    upload order and, within a file, in the order the parser appended them.
    No two rows of the table (at different positions) have the same
    (identifier, author, e-mail) triple.  [drop_duplicates] takes the rows of
    any sequence in order: the row at a position is kept exactly when no
    earlier row of the sequence has its triple; it comes right after the rows
    kept from the positions before it, and the rows kept from the positions
    after it follow. *)
Theorem table_has_no_duplicates (uploaded_files : list str) (df : list Row) :
  script uploaded_files = Ok (Success df) ->
  exists rowss,
    Forall2 (fun t rows => parse_medline_text t = Ok rows) uploaded_files rowss
    /\ df = Pd.drop_duplicates subset subset_eq_dec (List.concat rowss)
    /\ NoDup (map subset df)
    /\ (forall i j r1 r2,
          nth_error df i = Some r1 -> nth_error df j = Some r2 ->
          subset r1 = subset r2 -> i = j)
    /\ (forall before r after,
          exists kept_after,
            Pd.drop_duplicates subset subset_eq_dec (before ++ r :: after)
            = Pd.drop_duplicates subset subset_eq_dec before
              ++ (if in_dec subset_eq_dec (subset r) (map subset before)
                  then [] else [r])
              ++ kept_after
            /\ incl kept_after after).
Proof.
  intros Hs. destruct (script_total uploaded_files) as (rowss & HF & E).
  rewrite E in Hs. exists rowss. split; [exact HF|].
  assert (Hdf : df = Pd.drop_duplicates subset subset_eq_dec (List.concat rowss)).
  { destruct uploaded_files; [discriminate|].
    destruct (List.concat rowss); [discriminate|]. now injection Hs as <-. }
  clear Hs E. split; [exact Hdf|].
  assert (Hnd : NoDup (map subset df)).
  { subst df. apply (drop_from_fresh subset subset_eq_dec []). }
  split; [exact Hnd|]. split.
  - intros i j r1 r2. now apply NoDup_map_nth_error.
  - intros before r after. unfold Pd.drop_duplicates.
    change (before ++ r :: after) with (before ++ [r] ++ after).
    rewrite app_assoc, drop_from_app, drop_from_snoc, app_nil_r, <- app_assoc.
    eexists. split; [reflexivity | apply drop_from_incl].
Qed.

Lemma table_has_no_duplicates_witness :
  let file1 := text_of ["PMID- 1"; "TI  - T1"; "FAU - Smith J";
                        "AD  - Dept of X. jsmith@uni.edu";
                        "FAU - Doe A"; "AD  - adoe@uni.edu"] in
  let file2 := text_of ["PMID- 1"; "TI  - Other title"; "FAU - Smith J";
                        "AD  - jsmith@uni.edu"] in
  let smith := mkRow (Some (lit "1")) (Some (lit "T1")) (lit "Smith J")
                     (lit "jsmith@uni.edu") in
  let doe := mkRow (Some (lit "1")) (Some (lit "T1")) (lit "Doe A")
                   (lit "adoe@uni.edu") in
  script [file1; file2] = Ok (Success [smith; doe])
  /\ NoDup (map subset [smith; doe])
  /\ exists rowss,
       Forall2 (fun t rows => parse_medline_text t = Ok rows) [file1; file2] rowss
       /\ [smith; doe]
          = Pd.drop_duplicates subset subset_eq_dec (List.concat rowss).
Proof.
  intros file1 file2 smith doe.
  assert (H : script [file1; file2] = Ok (Success [smith; doe]))
    by (vm_compute; reflexivity).
  destruct (table_has_no_duplicates [file1; file2] [smith; doe] H)
    as (rowss & HF & Hdf & Hnd & _).
  split; [exact H|]. split; [exact Hnd|]. exists rowss. split; assumption.
Defined.

(** ** C8: where the text is split into records *)

Lemma ahead_record_start (s : str) :
  Re.ahead (map Re.chr (lit "PMID-") ++ [isspace]) s = record_start s.
Proof.
  unfold record_start, Re.chr.
  destruct s as [|c0 [|c1 [|c2 [|c3 [|c4 [|c5 s]]]]]]; cbn -[N.eqb isspace];
    rewrite ?andb_false_r, ?andb_true_r; try reflexivity.
  rewrite (N.eqb_sym 80), (N.eqb_sym 77), (N.eqb_sym 73), (N.eqb_sym 68),
    (N.eqb_sym 45), <- !andb_assoc.
  reflexivity.
Qed.

Lemma match_at_RECORD_SEP (c : char) (s : str) :
  Re.match_at RECORD_SEP (c :: s)
  = if (c =? 0x0A) && record_start s then Some 1%nat else None.
Proof.
  unfold RECORD_SEP. cbn [Re.match_at]. rewrite ahead_record_start.
  unfold Re.chr. rewrite (N.eqb_sym 10).
  destruct (c =? 10); [|reflexivity]. now destruct (record_start s).
Qed.

Lemma split_from_RECORD_SEP (cur : str) (c : char) (s : str) :
  Re.split_from RECORD_SEP cur 0 (c :: s)
  = if (c =? 0x0A) && record_start s
    then rev cur :: Re.split_from RECORD_SEP [] 0 s
    else Re.split_from RECORD_SEP (c :: cur) 0 s.
Proof.
  cbn [Re.split_from]. rewrite match_at_RECORD_SEP.
  now destruct ((c =? 10) && record_start s).
Qed.

Lemma split_from_not_nil (cur s : str) : Re.split_from RECORD_SEP cur 0 s <> [].
Proof.
  revert cur; induction s as [|c s IH]; intros cur.
  - discriminate.
  - rewrite split_from_RECORD_SEP.
    destruct ((c =? 10) && record_start s); [discriminate | apply IH].
Qed.

Lemma join_cons (sep x : str) (l : list str) :
  l <> [] -> join sep (x :: l) = x ++ sep ++ join sep l.
Proof. destruct l; [now intros [] | reflexivity]. Qed.

Lemma join_app (sep : str) (l1 l2 : list str) :
  l1 <> [] -> l2 <> [] ->
  join sep (l1 ++ l2) = join sep l1 ++ sep ++ join sep l2.
Proof.
  induction l1 as [|x l1 IH]; intros H1 H2; [now elim H1|].
  destruct l1 as [|y l1].
  - cbn [app]. now rewrite join_cons.
  - change ((x :: y :: l1) ++ l2) with (x :: (y :: l1) ++ l2).
    rewrite !join_cons, IH, <- !app_assoc by (try discriminate; assumption).
    reflexivity.
Qed.

Lemma join_split_from (cur s : str) :
  join [0x0A] (Re.split_from RECORD_SEP cur 0 s) = rev cur ++ s.
Proof.
  revert cur; induction s as [|c s IH]; intros cur.
  - cbn. now rewrite app_nil_r.
  - rewrite split_from_RECORD_SEP.
    destruct ((c =? 10) && record_start s) eqn:E.
    + rewrite join_cons by apply split_from_not_nil. rewrite IH.
      apply andb_prop in E as [E _]. apply N.eqb_eq in E. now subst c.
    + rewrite IH. cbn [rev]. now rewrite <- app_assoc.
Qed.

(** Every boundary between chunks is followed, in the text, by the marker. *)
Lemma split_from_boundary (cur s : str) (cs1 cs2 : list str) :
  Re.split_from RECORD_SEP cur 0 s = cs1 ++ cs2 -> cs1 <> [] -> cs2 <> [] ->
  record_start (join [0x0A] cs2) = true.
Proof.
  revert cur cs1; induction s as [|c s IH]; intros cur cs1 E H1 H2.
  - destruct cs1 as [|x [|y cs1]]; [now elim H1| |discriminate].
    destruct cs2; [now elim H2 | discriminate].
  - rewrite split_from_RECORD_SEP in E.
    destruct ((c =? 10) && record_start s) eqn:B; [|now apply (IH _ _ E)].
    destruct cs1 as [|x cs1]; [now elim H1|].
    injection E as _ E. destruct cs1 as [|y cs1].
    + cbn [app] in E. rewrite <- E, join_split_from.
      now apply andb_prop in B.
    + apply (IH [] (y :: cs1) E); [discriminate | assumption].
Qed.

(** Every newline of the text that is followed by the marker is a boundary. *)
Lemma split_from_complete (cur s a b : str) :
  s = a ++ 0x0A :: b -> record_start b = true ->
  exists cs1 cs2,
    Re.split_from RECORD_SEP cur 0 s = cs1 ++ cs2
    /\ cs1 <> [] /\ cs2 <> []
    /\ join [0x0A] cs1 = rev cur ++ a /\ join [0x0A] cs2 = b.
Proof.
  revert cur a; induction s as [|c s IH]; intros cur a E Hb.
  - destruct a; discriminate.
  - rewrite split_from_RECORD_SEP. destruct a as [|c' a].
    + injection E as -> ->. rewrite Hb. cbn [andb N.eqb Pos.eqb].
      exists [rev cur], (Re.split_from RECORD_SEP [] 0 b).
      repeat split; try discriminate.
      * apply split_from_not_nil.
      * cbn. now rewrite app_nil_r.
      * apply join_split_from.
    + injection E as -> ->.
      destruct ((c' =? 10) && record_start (a ++ 10 :: b)) eqn:B.
      * destruct (IH [] a eq_refl Hb) as (cs1 & cs2 & E1 & N1 & N2 & J1 & J2).
        exists (rev cur :: cs1), cs2. rewrite E1.
        repeat split; try discriminate; try assumption.
        rewrite join_cons, J1 by assumption.
        apply andb_prop in B as [B _]. apply N.eqb_eq in B. now subst c'.
      * destruct (IH (c' :: cur) a eq_refl Hb)
          as (cs1 & cs2 & E1 & N1 & N2 & J1 & J2).
        exists cs1, cs2. repeat split; try assumption.
        rewrite J1. cbn [rev]. now rewrite <- app_assoc.
Qed.

Lemma startswith_PMID_chunk (c rest : str) :
  startswith (lit "PMID-") (c ++ 0x0A :: rest) = true ->
  startswith (lit "PMID-") c = true.
Proof.
  destruct c as [|c0 [|c1 [|c2 [|c3 [|c4 c]]]]]; cbn;
    rewrite ?andb_false_r; intros H; try discriminate H; exact H.
Qed.

Lemma record_start_chunk (c : str) (cs : list str) :
  record_start (join [0x0A] (c :: cs)) = true ->
  startswith (lit "PMID-") c = true.
Proof.
  unfold record_start. intros H. apply andb_prop in H as [H _].
  destruct cs as [|d cs]; [exact H|].
  rewrite join_cons in H by discriminate.
  now apply startswith_PMID_chunk in H.
Qed.

(** C8, as stated, fails: not every line start that matches the marker
    begins a record.  After a bare carriage return, which ends a line for
    [splitlines], the text of the second record below starts a line with
    ['PMID- '] and the text is not split there, so both rows get the last
    identifier; and after a line feed a ['PMID-'] line without whitespace
    behind the dash, an identifier line for the header pass, opens no chunk
    either. *)
Lemma line_start_with_marker_is_not_always_a_boundary :
  splitlines
    (join [0x0D] [lit "PMID- 1"; lit "FAU - Doe A"; lit "AD  - adoe@uni.edu";
                  lit "PMID- 2"; lit "FAU - Smith J";
                  lit "AD  - jsmith@uni.edu"])
  = [lit "PMID- 1"; lit "FAU - Doe A"; lit "AD  - adoe@uni.edu";
     lit "PMID- 2"; lit "FAU - Smith J"; lit "AD  - jsmith@uni.edu"]
  /\ parse_medline_text
       (join [0x0D] [lit "PMID- 1"; lit "FAU - Doe A"; lit "AD  - adoe@uni.edu";
                     lit "PMID- 2"; lit "FAU - Smith J";
                     lit "AD  - jsmith@uni.edu"])
     = Ok [mkRow (Some (lit "2")) None (lit "Doe A") (lit "adoe@uni.edu");
           mkRow (Some (lit "2")) None (lit "Smith J") (lit "jsmith@uni.edu")]
  /\ ~ (forall text a c b,
          islinebreak c = true ->
          strip text = a ++ c :: b -> record_start b = true ->
          exists cs1 cs2,
            Re.split RECORD_SEP (strip text) = cs1 ++ cs2
            /\ cs1 <> [] /\ cs2 <> [])
  /\ ~ (forall text a b,
          strip text = a ++ 0x0A :: b ->
          startswith (lit "PMID-") b = true ->
          exists cs1 cs2,
            Re.split RECORD_SEP (strip text) = cs1 ++ cs2
            /\ cs1 <> [] /\ cs2 <> []).
Proof.
  assert (One : forall (x : str) cs1 cs2,
            [x] = cs1 ++ cs2 -> cs1 <> [] -> cs2 <> [] -> False).
  { intros x [|y [|z cs1]] cs2 E N1 N2; [now elim N1| |discriminate E].
    destruct cs2; [now elim N2 | discriminate E]. }
  split; [vm_compute; reflexivity|]. split; [vm_compute; reflexivity|].
  split; intros H.
  - destruct (H (join [0x0D] [lit "PMID- 1"; lit "FAU - Doe A";
                              lit "AD  - adoe@uni.edu"; lit "PMID- 2";
                              lit "FAU - Smith J"; lit "AD  - jsmith@uni.edu"])
                (join [0x0D] [lit "PMID- 1"; lit "FAU - Doe A";
                              lit "AD  - adoe@uni.edu"])
                0x0D
                (join [0x0D] [lit "PMID- 2"; lit "FAU - Smith J";
                              lit "AD  - jsmith@uni.edu"]))
      as (cs1 & cs2 & E & N1 & N2);
      [reflexivity | vm_compute; reflexivity | reflexivity|].
    vm_compute in E. exact (One _ _ _ E N1 N2).
  - destruct (H (text_of ["PMID- 1"; "PMID-2"; "FAU - Smith J";
                          "AD  - jsmith@uni.edu"])
                (lit "PMID- 1")
                (text_of ["PMID-2"; "FAU - Smith J"; "AD  - jsmith@uni.edu"]))
      as (cs1 & cs2 & E & N1 & N2);
      [vm_compute; reflexivity | reflexivity|].
    vm_compute in E. exact (One _ _ _ E N1 N2).
Qed.

(** C8, amended. The chunks are the pieces of the stripped text between the
    line feeds (U+000A) that are followed by ['PMID-'] and a whitespace
    character: joined again by line feeds they give the stripped text back;
    every boundary between two chunks is such a line feed, so a chunk after
    the first begins with ['PMID-'] right after a line feed and a tag in the
    middle of a line begins no record; and every such line feed is a
    boundary.  The parser works on these chunks. *)
Theorem records_split_at_line_starts (text : str) :
  let chunks := Re.split RECORD_SEP (strip text) in
  parse_medline_text text = parse_chunks chunks []
  /\ join [0x0A] chunks = strip text
  /\ (forall cs1 cs2,
        chunks = cs1 ++ cs2 -> cs1 <> [] -> cs2 <> [] ->
        strip text = join [0x0A] cs1 ++ 0x0A :: join [0x0A] cs2
        /\ record_start (join [0x0A] cs2) = true)
  /\ Forall (fun c => startswith (lit "PMID-") c = true) (tl chunks)
  /\ (forall a b,
        strip text = a ++ 0x0A :: b -> record_start b = true ->
        exists cs1 cs2,
          chunks = cs1 ++ cs2 /\ cs1 <> [] /\ cs2 <> []
          /\ join [0x0A] cs1 = a /\ join [0x0A] cs2 = b).
Proof.
  intros chunks.
  assert (J : join [0x0A] chunks = strip text)
    by apply (join_split_from [] (strip text)).
  assert (B : forall cs1 cs2,
             chunks = cs1 ++ cs2 -> cs1 <> [] -> cs2 <> [] ->
             record_start (join [0x0A] cs2) = true)
    by (intros cs1 cs2; apply split_from_boundary).
  split; [reflexivity|]. split; [exact J|]. split; [|split].
  - intros cs1 cs2 E H1 H2. split; [|now apply (B cs1 cs2)].
    rewrite <- J, E. now apply join_app.
  - destruct chunks as [|x rest] eqn:E; [constructor|]. cbn [tl].
    apply Forall_forall. intros c Hc.
    apply in_split in Hc as (l1 & l2 & ->).
    apply (record_start_chunk c l2).
    apply (B (x :: l1) (c :: l2)); [reflexivity | discriminate | discriminate].
  - intros a b E Hb.
    destruct (split_from_complete [] (strip text) a b E Hb)
      as (cs1 & cs2 & E1 & N1 & N2 & J1 & J2).
    exists cs1, cs2. auto.
Qed.

Lemma records_split_at_line_starts_witness :
  let text :=
    text_of [""; "PMID- 1 cites PMID- 2"; "TI  - A"; "PMID- 3"; "PMID-4"; " "] in
  let c1 := text_of ["PMID- 1 cites PMID- 2"; "TI  - A"] in
  let c2 := text_of ["PMID- 3"; "PMID-4"] in
  Re.split RECORD_SEP (strip text) = [c1] ++ [c2]
  /\ strip text = c1 ++ 0x0A :: c2
  /\ record_start c2 = true
  /\ (strip text = join [0x0A] [c1] ++ 0x0A :: join [0x0A] [c2]
      /\ record_start (join [0x0A] [c2]) = true)
  /\ (exists cs1 cs2,
        Re.split RECORD_SEP (strip text) = cs1 ++ cs2 /\ cs1 <> [] /\ cs2 <> []
        /\ join [0x0A] cs1 = c1 /\ join [0x0A] cs2 = c2).
Proof.
  intros text c1 c2.
  assert (E : Re.split RECORD_SEP (strip text) = [c1] ++ [c2])
    by (vm_compute; reflexivity).
  assert (T : strip text = c1 ++ 0x0A :: c2) by (vm_compute; reflexivity).
  assert (M : record_start c2 = true) by reflexivity.
  destruct (records_split_at_line_starts text) as (_ & _ & Hb & _ & Hc).
  refine (conj E (conj T (conj M (conj _ _)))).
  - apply (Hb [c1] [c2] E); discriminate.
  - exact (Hc c1 c2 T M).
Defined.

(** ** C6: the e-mail locator *)

Section Backtracking.
Context {A : Type} (f : nat -> option A).

Lemma backtrack_sound (lo n : nat) (r : A) :
  Re.backtrack f lo n = Some r ->
  exists k, (lo <= k <= n)%nat /\ f k = Some r
            /\ forall k', (k < k' <= n)%nat -> f k' = None.
Proof.
  induction n as [|n IH]; cbn [Re.backtrack].
  - destruct (Nat.ltb_spec 0 lo) as [H|H]; [discriminate|].
    destruct (f 0%nat) eqn:E; [|discriminate].
    intros [= ->]. exists 0%nat. repeat split; try lia; try assumption.
  - destruct (Nat.ltb_spec (S n) lo) as [H|H]; [discriminate|].
    destruct (f (S n)) eqn:E.
    + intros [= ->]. exists (S n). repeat split; try lia; try assumption.
    + intros Hb. destruct (Nat.eq_dec lo (S n)) as [->|Hne].
      * destruct n; cbn [Re.backtrack] in Hb.
        -- now destruct (Nat.ltb_spec 0 1) as [_|?]; [|lia].
        -- now destruct (Nat.ltb_spec (S n) (S (S n))) as [_|?]; [|lia].
      * destruct (IH Hb) as (k & Hk & Hf & Hmax).
        exists k. repeat split; try lia; try assumption.
        intros k' Hk'. destruct (Nat.eq_dec k' (S n)) as [->|?];
          [assumption | apply Hmax; lia].
Qed.

Lemma backtrack_complete (lo n k : nat) :
  (lo <= k <= n)%nat -> f k <> None -> Re.backtrack f lo n <> None.
Proof.
  induction n as [|n IH]; intros Hk Hf; cbn [Re.backtrack].
  - assert (k = 0%nat) by lia. subst k.
    destruct (Nat.ltb_spec 0 lo) as [H|H]; [lia|].
    now destruct (f 0%nat).
  - destruct (Nat.ltb_spec (S n) lo) as [H|H]; [lia|].
    destruct (f (S n)) eqn:E; [discriminate|].
    apply IH; [|assumption].
    destruct (Nat.eq_dec k (S n)) as [->|?]; [congruence | lia].
Qed.

End Backtracking.

Lemma takewhile_firstn {A} (p : A -> bool) (s : list A) (k : nat) :
  (k <= List.length (takewhile p s))%nat ->
  Forall (fun c => p c = true) (firstn k s) /\ List.length (firstn k s) = k.
Proof.
  revert k; induction s as [|c s IH]; intros [|k] H; cbn in *;
    try (split; [constructor | reflexivity]); try lia.
  destruct (p c) eqn:E; cbn in H; [|lia].
  destruct (IH k) as [H1 H2]; [lia|]. split; [now constructor | now f_equal].
Qed.

Lemma takewhile_app_length {A} (p : A -> bool) (u v : list A) :
  Forall (fun c => p c = true) u ->
  (List.length u <= List.length (takewhile p (u ++ v)))%nat.
Proof.
  induction 1 as [|c u Hc _ IH]; cbn; [lia|]. rewrite Hc. cbn. lia.
Qed.

Lemma firstn_plus {A} (n m : nat) (l : list A) :
  firstn (n + m) l = firstn n l ++ firstn m (skipn n l).
Proof.
  revert l; induction n as [|n IH]; intros [|x l]; cbn;
    rewrite ?firstn_nil; try reflexivity.
  now rewrite IH.
Qed.

Lemma skipn_plus {A} (n m : nat) (l : list A) :
  skipn (n + m) l = skipn m (skipn n l).
Proof.
  revert l; induction n as [|n IH]; intros [|x l]; cbn;
    rewrite ?skipn_nil; try reflexivity.
  apply IH.
Qed.

Lemma skipn_length_app {A} (u v : list A) : skipn (List.length u) (u ++ v) = v.
Proof. induction u; [reflexivity | assumption]. Qed.

Lemma firstn_length_app {A} (u v : list A) : firstn (List.length u) (u ++ v) = u.
Proof. induction u; cbn; [reflexivity | now f_equal]. Qed.

(** The engine only returns words of the language ... *)
Lemma match_at_sound (r : Re.regex) (s : str) (n : nat) :
  Re.match_at r s = Some n -> matches r (firstn n s) (skipn n s).
Proof.
  revert s n; induction r as [|[cls|lo cls|items] r IH]; intros s n;
    cbn [Re.match_at].
  - intros [= <-]. constructor.
  - destruct s as [|c s]; [discriminate|].
    destruct (cls c) eqn:Ec; [|discriminate].
    destruct (Re.match_at r s) as [n'|] eqn:E; [|discriminate].
    intros [= <-]. cbn [firstn skipn]. constructor; [assumption | now apply IH].
  - intros H. apply backtrack_sound in H as (k & Hk & H & _).
    destruct (Re.match_at r (skipn k s)) as [n'|] eqn:E; [|discriminate].
    injection H as <-. rewrite firstn_plus, skipn_plus.
    destruct (takewhile_firstn cls s k) as [Hf Hl]; [lia|].
    constructor; [lia | assumption | now apply IH].
  - destruct (Re.ahead items s) eqn:Ea; [|discriminate].
    intros H. constructor; [now rewrite firstn_skipn | now apply IH].
Qed.

(** ... and finds a match wherever the language has a word. *)
Lemma match_at_complete (r : Re.regex) (w rest : str) :
  matches r w rest -> Re.match_at r (w ++ rest) <> None.
Proof.
  induction 1 as [rest|cls r c w rest Hc _ IH|lo cls r u w rest Hlo Hu _ IH
                 |items r w rest Ha _ IH]; cbn [Re.match_at app].
  - discriminate.
  - rewrite Hc. now destruct (Re.match_at r (w ++ rest)).
  - apply (backtrack_complete _ lo _ (List.length u)).
    + split; [assumption|]. rewrite <- app_assoc.
      now apply takewhile_app_length.
    + rewrite <- app_assoc, skipn_length_app.
      now destruct (Re.match_at r (w ++ rest)).
  - now rewrite Ha.
Qed.

Lemma match_at_length (r : Re.regex) (s : str) (n : nat) :
  Re.match_at r s = Some n -> (n <= List.length s)%nat.
Proof.
  revert s n; induction r as [|[cls|lo cls|items] r IH]; intros s n;
    cbn [Re.match_at].
  - intros [= <-]. lia.
  - destruct s as [|c s]; [discriminate|].
    destruct (cls c); [|discriminate].
    destruct (Re.match_at r s) as [n'|] eqn:E; [|discriminate].
    intros [= <-]. apply IH in E. cbn [List.length]. lia.
  - intros H. apply backtrack_sound in H as (k & Hk & H & _).
    destruct (Re.match_at r (skipn k s)) as [n'|] eqn:E; [|discriminate].
    injection H as <-. apply IH in E. rewrite length_skipn in E.
    destruct (takewhile_firstn cls s k) as [_ Hl]; [lia|].
    rewrite length_firstn in Hl. lia.
  - destruct (Re.ahead items s); [apply IH | discriminate].
Qed.

Lemma search_from_found (r : Re.regex) (pos : nat) (s : str) (p : nat) (m : str) :
  Re.search_from r pos s = Some (p, m) ->
  exists pre post,
    s = pre ++ m ++ post /\ p = (pos + List.length pre)%nat
    /\ matches r m post
    /\ Re.match_at r (m ++ post) = Some (List.length m)
    /\ forall pre' rest',
         s = pre' ++ rest' -> (List.length pre' < List.length pre)%nat ->
         Re.match_at r rest' = None.
Proof.
  assert (Here : forall s n, Re.match_at r s = Some n ->
            s = [] ++ firstn n s ++ skipn n s
            /\ matches r (firstn n s) (skipn n s)
            /\ Re.match_at r (firstn n s ++ skipn n s)
               = Some (List.length (firstn n s))).
  { intros s' n E. cbn [app]. rewrite firstn_skipn.
    split; [reflexivity|]. split; [now apply match_at_sound|].
    rewrite length_firstn, E. f_equal. apply match_at_length in E. lia. }
  revert pos; induction s as [|c s IH]; intros pos; cbn [Re.search_from].
  - destruct (Re.match_at r []) as [n|] eqn:E; [|discriminate].
    intros [= <- <-]. exists [], (skipn n []).
    destruct (Here _ _ E) as (H1 & H2 & H3).
    repeat split; try assumption; cbn [List.length]; intros; lia.
  - destruct (Re.match_at r (c :: s)) as [n|] eqn:E.
    + intros [= <- <-]. exists [], (skipn n (c :: s)).
      destruct (Here _ _ E) as (H1 & H2 & H3).
      repeat split; try assumption; cbn [List.length]; intros; lia.
    + intros H. apply IH in H as (pre & post & -> & -> & Hm & Hn & Hnone).
      exists (c :: pre), post. cbn [app List.length].
      repeat split; [lia | assumption | assumption |].
      intros [|c' pre'] rest' E' Hlen; cbn [app] in E'.
      * now subst rest'.
      * injection E' as _ E'. apply (Hnone pre' rest' E').
        cbn [List.length] in Hlen. lia.
Qed.

Lemma search_from_none (r : Re.regex) (pos : nat) (s : str) :
  Re.search_from r pos s = None ->
  forall pre rest, s = pre ++ rest -> Re.match_at r rest = None.
Proof.
  revert pos; induction s as [|c s IH]; intros pos; cbn [Re.search_from].
  - destruct (Re.match_at r []) eqn:E; [discriminate|].
    intros _ [|? ?] rest H; [cbn [app] in H; now subst rest | discriminate].
  - destruct (Re.match_at r (c :: s)) eqn:E; [discriminate|].
    intros H [|c' pre] rest E'; cbn [app] in E'.
    + now subst rest.
    + injection E' as _ E'. now apply (IH _ H pre rest).
Qed.

Lemma match_at_One_inv (cls : char -> bool) (r : Re.regex) (s : str) (n : nat) :
  Re.match_at (Re.One cls :: r) s = Some n ->
  exists c s' n',
    s = c :: s' /\ cls c = true /\ Re.match_at r s' = Some n' /\ n = S n'.
Proof.
  cbn [Re.match_at]. destruct s as [|c s']; [discriminate|].
  destruct (cls c) eqn:Ec; [|discriminate].
  destruct (Re.match_at r s') as [n'|] eqn:E; [|discriminate].
  intros [= <-]. exists c, s', n'. auto.
Qed.

Lemma match_at_Many_inv (lo : nat) (cls : char -> bool) (r : Re.regex)
  (s : str) (n : nat) :
  Re.match_at (Re.Many lo cls :: r) s = Some n ->
  exists k n',
    (lo <= k <= List.length (takewhile cls s))%nat
    /\ Re.match_at r (skipn k s) = Some n' /\ n = (k + n')%nat
    /\ forall k', (k < k' <= List.length (takewhile cls s))%nat ->
                  Re.match_at r (skipn k' s) = None.
Proof.
  cbn [Re.match_at]. intros H.
  apply backtrack_sound in H as (k & Hk & H & Hmax).
  destruct (Re.match_at r (skipn k s)) as [n'|] eqn:E; [|discriminate].
  cbn [option_map] in H. injection H as <-.
  exists k, n'. split; [lia|]. split; [exact E|]. split; [reflexivity|].
  intros k' Hk'. specialize (Hmax k' Hk').
  now destruct (Re.match_at r (skipn k' s)).
Qed.

Lemma app_cons_unique (p : char -> bool) (x : char) (u u' a b : str) :
  Forall (fun c => p c = true) u -> Forall (fun c => p c = true) u' ->
  p x = false -> u ++ x :: a = u' ++ x :: b -> u = u' /\ a = b.
Proof.
  intros Hu; revert u'; induction Hu as [|c u Hc _ IH];
    intros u' Hu' Hx E; destruct Hu' as [|c' u' Hc' Hu']; cbn [app] in E.
  - injection E as ->. auto.
  - injection E as <- _. congruence.
  - injection E as -> _. congruence.
  - injection E as -> E. destruct (IH u' Hu' Hx E) as [-> ->]. auto.
Qed.

Lemma skipn_into_app (j : nat) (t post : str) :
  (j < List.length t)%nat ->
  exists e tl, skipn j (t ++ post) = e :: tl /\ In e t.
Proof.
  revert t; induction j as [|j IH]; intros [|c t] H; cbn in H; try lia.
  - exists c, (t ++ post). split; [reflexivity | now left].
  - destruct (IH t) as (e & tl & E & Hin); [lia|].
    exists e, tl. split; [exact E | now right].
Qed.

(** Among the words of the shape that start where the engine matched, the
    engine's match is the longest. *)
Lemma match_at_EMAIL_RX_longest (s : str) (n : nat) (m' post' : str) :
  Re.match_at EMAIL_RX s = Some n ->
  s = m' ++ post' -> email_shape m' -> (List.length m' <= n)%nat.
Proof.
  intros H Es (l' & d' & t' & -> & _ & Hl' & _ & Hd' & Ht2 & Ht').
  unfold EMAIL_RX in H.
  (* the local part: up to the first character outside its class *)
  apply match_at_Many_inv in H as (k & n1 & Hk & H & -> & _).
  apply match_at_One_inv in H as (c & a & n2 & Esk & Hc & H & ->).
  apply N.eqb_eq in Hc. subst c.
  destruct (takewhile_firstn local_cls s k) as [Hl Hlen]; [lia|].
  assert (E : firstn k s ++ 0x40 :: a = l' ++ 0x40 :: d' ++ 0x2E :: t' ++ post').
  { pose proof (firstn_skipn k s) as Hs. rewrite Esk in Hs.
    etransitivity; [exact Hs|]. rewrite Es, <- !app_assoc. reflexivity. }
  apply (app_cons_unique local_cls) in E as [El Ea];
    [|assumption|assumption|reflexivity].
  (* the domain: the engine gives back no more than it must *)
  apply match_at_Many_inv in H as (k2 & n3 & Hk2 & H & -> & Hmax).
  assert (Hd : (List.length d' <= k2)%nat).
  { destruct (le_lt_dec (List.length d') k2) as [?|Hlt]; [assumption|].
    exfalso.
    apply (match_at_complete [Re.One (Re.chr 0x2E); Re.Many 2 isalpha_ascii]
             (0x2E :: t') post').
    - apply matches_One; [reflexivity|].
      rewrite <- (app_nil_r t'). apply matches_Many with (w := []);
        [assumption | assumption | constructor].
    - rewrite <- (Hmax (List.length d')).
      + rewrite Ea, skipn_length_app. reflexivity.
      + split; [assumption|]. rewrite Ea. now apply takewhile_app_length. }
  apply match_at_One_inv in H as (c2 & b & n4 & Esk2 & Hc2 & H & ->).
  apply N.eqb_eq in Hc2. subst c2.
  (* the last repetition keeps all the letters it took *)
  apply match_at_Many_inv in H as (k3 & n5 & Hk3 & H & -> & Hmax3).
  cbn [Re.match_at] in H. injection H as <-.
  assert (Ek3 : k3 = List.length (takewhile isalpha_ascii b)).
  { destruct (Nat.eq_dec k3 (List.length (takewhile isalpha_ascii b)))
      as [?|Hne]; [assumption|].
    specialize (Hmax3 (List.length (takewhile isalpha_ascii b))).
    cbn [Re.match_at] in Hmax3. discriminate Hmax3. lia. }
  assert (Hgoal : (List.length d' + List.length t' <= k2 + k3)%nat).
  { destruct (Nat.eq_dec (List.length d') k2) as [<-|Hne].
    - rewrite Ea, skipn_length_app in Esk2. injection Esk2 as <-.
      rewrite Ek3. apply Nat.add_le_mono_l.
      now apply takewhile_app_length.
    - destruct (le_lt_dec (List.length d' + 1 + List.length t') k2)
        as [?|Hlt]; [lia|].
      exfalso.
      replace k2 with (List.length d' + S (k2 - List.length d' - 1))%nat
        in Esk2 by lia.
      rewrite Ea, skipn_plus, skipn_length_app in Esk2. cbn [skipn] in Esk2.
      destruct (skipn_into_app (k2 - List.length d' - 1) t' post')
        as (e & tl & E & Hin); [lia|].
      rewrite E in Esk2. injection Esk2 as -> _.
      rewrite Forall_forall in Ht'. specialize (Ht' _ Hin). discriminate Ht'. }
  rewrite !length_app. cbn [List.length]. rewrite <- El, Hlen. lia.
Qed.

Lemma matches_EMAIL_RX (m rest : str) : matches EMAIL_RX m rest <-> email_shape m.
Proof.
  unfold EMAIL_RX, email_shape. split.
  - intros H.
    inversion H as [| |? ? ? l w1 ? Hl1 Hl2 H1|]; subst; clear H.
    inversion H1 as [|? ? c1 w2 ? Hc1 H2| |]; subst; clear H1.
    inversion H2 as [| |? ? ? d w3 ? Hd1 Hd2 H3|]; subst; clear H2.
    inversion H3 as [|? ? c2 w4 ? Hc2 H4| |]; subst; clear H3.
    inversion H4 as [| |? ? ? t w5 ? Ht1 Ht2 H5|]; subst; clear H4.
    inversion H5; subst; clear H5.
    apply N.eqb_eq in Hc1, Hc2. subst c1 c2.
    exists l, d, t. rewrite app_nil_r.
    repeat split; try assumption; intros ->; cbn in *; lia.
  - intros (l & d & t & -> & Hl & Hl' & Hd & Hd' & Ht & Ht').
    apply matches_Many; [destruct l; [congruence | cbn; lia] | assumption|].
    apply matches_One; [reflexivity|].
    apply matches_Many; [destruct d; [congruence | cbn; lia] | assumption|].
    apply matches_One; [reflexivity|].
    rewrite <- (app_nil_r t).
    apply matches_Many; [assumption | assumption | constructor].
Qed.

(** C6. [EMAIL_RX.search] returns a substring of the text that has the shape
    [local-part@domain.tld] and starts at the leftmost position where a
    substring of that shape starts (of the substrings of the shape that start
    there it is the longest); it returns no match exactly when the text has no
    substring of the shape.  The e-mail of a row is the match found in the
    text of the affiliation block, so a second address in that text is not
    used; that match is the [Email] of the row appended for the author. *)
Theorem email_locator_leftmost :
  (forall text,
     match Re.search EMAIL_RX text with
     | Some (pos, m) =>
         exists pre post,
           text = pre ++ m ++ post /\ List.length pre = pos
           /\ email_shape m
           /\ (forall pre' m' post',
                 text = pre' ++ m' ++ post' -> email_shape m' ->
                 (pos <= List.length pre')%nat)
           /\ (forall m' post',
                 text = pre ++ m' ++ post' -> email_shape m' ->
                 (List.length m' <= List.length m)%nat)
     | None =>
         forall pre' m' post', text = pre' ++ m' ++ post' -> ~ email_shape m'
     end)
  /\ (forall line after,
        startswith (lit "AD  -") line = true ->
        exists text,
          aff_text line after = Ok text
          /\ affiliation_email line after
             = Ok match Re.search EMAIL_RX text with
                  | Some (_, m) => m
                  | None => []
                  end)
  /\ (forall pmid title fau rest records c email,
        startswith (lit "FAU -") fau = true ->
        look_ahead rest = Ok (c :: email) ->
        author_pass pmid title (fau :: rest) records
        = author_pass pmid title rest
            (records ++ [mkRow pmid title (strip (skipn 5 fau)) (c :: email)])).
Proof.
  split; [|split; [|exact author_pass_email]].
  - intros text. unfold Re.search.
    destruct (Re.search_from EMAIL_RX 0 text) as [[pos m]|] eqn:E.
    + apply search_from_found in E
        as (pre & post & -> & -> & Hm & Hn & Hnone).
      exists pre, post. split; [reflexivity|]. split; [reflexivity|].
      split; [now apply (matches_EMAIL_RX m post)|]. split.
      * intros pre' m' post' E' Hs. cbn [Nat.add].
        destruct (le_lt_dec (List.length pre) (List.length pre'))
          as [?|Hlt]; [assumption|].
        exfalso. apply (match_at_complete EMAIL_RX m' post').
        -- now apply matches_EMAIL_RX.
        -- now apply (Hnone pre' (m' ++ post')).
      * intros m' post' E' Hs. apply app_inv_head in E'.
        now apply (match_at_EMAIL_RX_longest (m ++ post) _ m' post').
    + intros pre' m' post' E' Hs.
      apply (match_at_complete EMAIL_RX m' post').
      * now apply matches_EMAIL_RX.
      * now apply (search_from_none _ _ _ E pre').
  - intros line after Ha. rewrite (aff_text_eq _ _ Ha). eexists.
    split; [reflexivity|]. rewrite (affiliation_email_eq _ _ Ha).
    destruct Re.search as [[pos m]|]; reflexivity.
Qed.

Lemma email_locator_leftmost_witness :
  let fau := lit "FAU - Smith J" in
  let ad := lit "AD  - Dept of X. Contact: j.smith@med.uni.edu or office@uni.edu." in
  let text := lit "Dept of X. Contact: j.smith@med.uni.edu or office@uni.edu." in
  let pre2 := lit "Dept of X. Contact: j.smith@med.uni.edu or " in
  startswith (lit "AD  -") ad = true
  /\ startswith (lit "FAU -") fau = true
  /\ Re.search EMAIL_RX text = Some (20%nat, lit "j.smith@med.uni.edu")
  /\ aff_text ad [] = Ok text
  /\ look_ahead [ad] = Ok (lit "j.smith@med.uni.edu")
  /\ text = pre2 ++ lit "office@uni.edu" ++ lit "."
  /\ email_shape (lit "office@uni.edu")
  /\ affiliation_email ad [] = Ok (lit "j.smith@med.uni.edu")
  /\ (20 <= List.length pre2)%nat
  /\ ~ email_shape (lit "Dept of X")
  /\ author_pass None None [fau; ad] []
     = author_pass None None [ad]
         [mkRow None None (lit "Smith J") (lit "j.smith@med.uni.edu")].
Proof.
  intros fau ad text pre2.
  assert (Ha : startswith (lit "AD  -") ad = true) by reflexivity.
  assert (Hf : startswith (lit "FAU -") fau = true) by reflexivity.
  assert (Hs : Re.search EMAIL_RX text = Some (20%nat, lit "j.smith@med.uni.edu"))
    by (vm_compute; reflexivity).
  assert (Ht : aff_text ad [] = Ok text) by (vm_compute; reflexivity).
  assert (Hl : look_ahead [ad] = Ok (lit "j.smith@med.uni.edu"))
    by (vm_compute; reflexivity).
  assert (E : text = pre2 ++ lit "office@uni.edu" ++ lit ".") by reflexivity.
  assert (Hshape : email_shape (lit "office@uni.edu")).
  { exists (lit "office"), (lit "uni"), (lit "edu").
    split; [reflexivity|].
    repeat split; try discriminate; try (repeat constructor); cbn; lia. }
  destruct email_locator_leftmost as (Hsearch & Hblock & Hrow).
  refine (conj Ha (conj Hf (conj Hs (conj Ht (conj Hl (conj E (conj Hshape
            (conj _ (conj _ (conj _ _)))))))))).
  - destruct (Hblock ad [] Ha) as (text' & Ht' & He).
    rewrite Ht in Ht'. injection Ht' as <-. rewrite He, Hs. reflexivity.
  - specialize (Hsearch text). rewrite Hs in Hsearch.
    destruct Hsearch as (pre & post & _ & _ & _ & Hleft & _).
    exact (Hleft pre2 (lit "office@uni.edu") (lit ".") E Hshape).
  - specialize (Hsearch (lit "Dept of X")).
    assert (Hn : Re.search EMAIL_RX (lit "Dept of X") = None)
      by (vm_compute; reflexivity).
    rewrite Hn in Hsearch. exact (Hsearch [] (lit "Dept of X") [] eq_refl).
  - exact (Hrow None None fau [ad] [] _ _ Hf Hl).
Defined.

Lemma concat_rows_have_email (texts : list str) (rowss : list (list Row)) :
  Forall2 (fun t rows => parse_medline_text t = Ok rows) texts rowss ->
  Forall (fun r => Email r <> []) (List.concat rowss).
Proof.
  induction 1 as [|t rows texts rowss Hp _ IH]; cbn [List.concat].
  - constructor.
  - apply Forall_app. split; [|exact IH].
    destruct (parse_total t) as (rows' & Hp' & Hrows). congruence.
Qed.

Lemma table_rows_have_email (uploaded_files : list str) (df : list Row) :
  script uploaded_files = Ok (Success df) ->
  Forall (fun r => Email r <> []) df.
Proof.
  destruct (script_total uploaded_files) as (rowss & HF & ->).
  destruct uploaded_files as [|t ts]; [discriminate|].
  pose proof (concat_rows_have_email _ _ HF) as Hall.
  destruct (List.concat rowss) as [|r rs] eqn:E; [discriminate|].
  intros [= <-]. rewrite Forall_forall in *. intros x Hx. apply Hall.
  exact (drop_from_incl subset subset_eq_dec [] (r :: rs) x Hx).
Qed.

(** C4. Every row returned by [parse_medline_text], and so every row of the
    table the script shows, has a non-empty [Email].
    An author line whose look-ahead ends with [email] empty appends nothing;
    that is the case when no ['AD  -'] line follows in the record, and when
    the text of the affiliation block found has no match of [EMAIL_RX] (the
    empty text has none). *)
Theorem rows_have_email :
  (forall text, exists rows,
      parse_medline_text text = Ok rows /\ Forall (fun r => Email r <> []) rows)
  /\ (forall uploaded_files df,
        script uploaded_files = Ok (Success df) ->
        Forall (fun r => Email r <> []) df)
  /\ (forall pmid title line rest records,
        startswith (lit "FAU -") line = true -> look_ahead rest = Ok [] ->
        author_pass pmid title (line :: rest) records
        = author_pass pmid title rest records)
  /\ (forall rest,
        Forall (fun l => startswith (lit "AD  -") l = false) rest ->
        look_ahead rest = Ok [])
  /\ (forall skipped line after text,
        Forall passed_over skipped ->
        startswith (lit "AD  -") line = true ->
        aff_text line after = Ok text -> Re.search EMAIL_RX text = None ->
        look_ahead (skipped ++ line :: after) = Ok [])
  /\ Re.search EMAIL_RX [] = None.
Proof.
  repeat split.
  - exact parse_total.
  - exact table_rows_have_email.
  - exact author_pass_no_email.
  - exact look_ahead_no_AD.
  - intros skipped line after text Hs Ha Ht Hn.
    rewrite (look_ahead_skip _ _ Hs), (look_ahead_at_AD _ _ Ha).
    exact (affiliation_email_no_match _ _ _ Ht Hn).
Qed.

Lemma rows_have_email_witness :
  let fau := lit "FAU - Doe A" in
  let la := lit "LA  - eng" in
  let ad := lit "AD  - Dept of Y, no address" in
  startswith (lit "FAU -") fau = true
  /\ Forall (fun l => startswith (lit "AD  -") l = false) [la]
  /\ Forall passed_over [la]
  /\ startswith (lit "AD  -") ad = true
  /\ aff_text ad [] = Ok (lit "Dept of Y, no address")
  /\ Re.search EMAIL_RX (lit "Dept of Y, no address") = None
  /\ look_ahead [la] = Ok []
  /\ look_ahead [la; ad] = Ok []
  /\ author_pass None None [fau; la] [] = author_pass None None [la] []
  /\ author_pass None None [fau; la; ad] [] = author_pass None None [la; ad] [].
Proof.
  intros fau la ad.
  assert (Hf : startswith (lit "FAU -") fau = true) by reflexivity.
  assert (Hn : Forall (fun l => startswith (lit "AD  -") l = false) [la])
    by (repeat constructor).
  assert (Hp : Forall passed_over [la]) by (repeat constructor).
  assert (Ha : startswith (lit "AD  -") ad = true) by reflexivity.
  assert (Ht : aff_text ad [] = Ok (lit "Dept of Y, no address"))
    by (vm_compute; reflexivity).
  assert (Hs : Re.search EMAIL_RX (lit "Dept of Y, no address") = None)
    by (vm_compute; reflexivity).
  destruct rows_have_email as (_ & _ & Hrow & Hnone & Hblock & _).
  pose proof (Hnone [la] Hn) as H1.
  pose proof (Hblock [la] ad [] _ Hp Ha Ht Hs) as H2.
  exact (conj Hf (conj Hn (conj Hp (conj Ha (conj Ht (conj Hs (conj H1 (conj H2
           (conj (Hrow None None fau [la] [] Hf H1)
                 (Hrow None None fau [la; ad] [] Hf H2)))))))))).
Defined.

(** ** The scenarios of the specification, run on the embedding *)

(** Scenario A: one record, one author with an address. *)
Example scenario_A :
  parse_medline_text
    (text_of ["PMID- 1"; "TI  - T1"; "FAU - Smith J";
              "AD  - Dept of X. jsmith@uni.edu"])
  = Ok [mkRow (Some (lit "1")) (Some (lit "T1")) (lit "Smith J")
              (lit "jsmith@uni.edu")].
Proof. vm_compute. reflexivity. Qed.

(** Scenario B: the affiliation continues on an indented line. *)
Example scenario_B :
  aff_text (lit "AD  - Dept of Y,") [lit "      adoe@uni.edu"]
  = Ok (lit "Dept of Y, adoe@uni.edu")
  /\ parse_medline_text
       (text_of ["FAU - Doe A"; "AD  - Dept of Y,"; "      adoe@uni.edu"])
     = Ok [mkRow None None (lit "Doe A") (lit "adoe@uni.edu")].
Proof. split; vm_compute; reflexivity. Qed.

(** Scenario C: an author without any ['AD  -'] line gives no row. *)
Example scenario_C :
  parse_medline_text (text_of ["PMID- 1"; "TI  - T1"; "FAU - Smith J"]) = Ok [].
Proof. vm_compute. reflexivity. Qed.

(** Scenario D: the same (identifier, author, e-mail) in two files. *)
Example scenario_D :
  let file := text_of ["PMID- 1"; "TI  - T1"; "FAU - Smith J";
                       "AD  - Dept of X. jsmith@uni.edu"] in
  script [file; file]
  = Ok (Success [mkRow (Some (lit "1")) (Some (lit "T1")) (lit "Smith J")
                       (lit "jsmith@uni.edu")]).
Proof. vm_compute. reflexivity. Qed.

(** Scenario E: one uploaded file, empty. *)
Example scenario_E : script [[]] = Ok Warning.
Proof. reflexivity. Qed.

(** A bare carriage return ends a line for [splitlines] but is no record
    boundary: both identifier lines stay in one chunk. *)
Example carriage_return_is_no_record_boundary :
  let text := lit "PMID- 1" ++ [0x0D] ++ lit "PMID- 2" in
  Re.split RECORD_SEP (strip text) = [text]
  /\ splitlines text = [lit "PMID- 1"; lit "PMID- 2"].
Proof. split; vm_compute; reflexivity. Qed.

(** * Further properties of the parser and of the script *)

(** ** Substrings *)

Lemma infix_refl (s : str) : infix s s.
Proof. exists [], []. now rewrite app_nil_r. Qed.

Lemma infix_trans (a b c : str) : infix a b -> infix b c -> infix a c.
Proof.
  intros (p1 & q1 & ->) (p2 & q2 & ->).
  exists (p2 ++ p1), (q1 ++ q2). now rewrite <- !app_assoc.
Qed.

Lemma infix_app_l (m a b : str) : infix m a -> infix m (a ++ b).
Proof.
  intros (p & q & ->). exists p, (q ++ b). now rewrite <- !app_assoc.
Qed.

Lemma infix_app_r (m a b : str) : infix m b -> infix m (a ++ b).
Proof.
  intros (p & q & ->). exists (a ++ p), q. now rewrite <- !app_assoc.
Qed.

Lemma infix_In (c : char) (m s : str) : infix m s -> In c m -> In c s.
Proof. intros (p & q & ->) H. rewrite !in_app_iff. tauto. Qed.

Lemma dropwhile_suffix {A} (p : A -> bool) (l : list A) :
  exists pre, l = pre ++ dropwhile p l /\ Forall (fun c => p c = true) pre.
Proof.
  induction l as [|x l (pre & E & F)]; cbn [dropwhile].
  - exists []. split; [reflexivity | constructor].
  - destruct (p x) eqn:Hx.
    + exists (x :: pre). split; [cbn; now f_equal | now constructor].
    + exists []. split; [reflexivity | constructor].
Qed.

Lemma infix_skipn (n : nat) (s : str) : infix (skipn n s) s.
Proof.
  exists (firstn n s), []. now rewrite app_nil_r, firstn_skipn.
Qed.

Lemma infix_strip (s : str) : infix (strip s) s.
Proof.
  unfold strip, rstrip, lstrip.
  destruct (dropwhile_suffix isspace s) as (pre & E & _).
  destruct (dropwhile_suffix isspace (rev (dropwhile isspace s)))
    as (post & E' & _).
  exists pre, (rev post).
  rewrite E at 1. f_equal.
  rewrite <- (rev_involutive (dropwhile isspace s)) at 1.
  rewrite E' at 1. now rewrite rev_app_distr.
Qed.

Lemma infix_join (sep x : str) (l : list str) : In x l -> infix x (join sep l).
Proof.
  induction l as [|y l IH]; [intros []|].
  intros [->|H].
  - destruct l; [apply infix_refl|]. cbn [join]. apply infix_app_l, infix_refl.
  - destruct l as [|z l]; [destruct H|].
    rewrite join_cons by discriminate.
    apply infix_app_r, infix_app_r, IH, H.
Qed.

(** A word without the separator character that occurs in a joined text
    occurs in one of the joined pieces. *)
Lemma infix_cut (c : char) (m x y : str) :
  ~ In c m -> infix m (x ++ c :: y) -> infix m x \/ infix m y.
Proof.
  intros Hc (pre & post & E). symmetry in E.
  apply app_eq_app in E as (l & [[-> E]|[-> E]]).
  - destruct l as [|c' l]; cbn [app] in E.
    + destruct m as [|c' m]; [left; exists [], x; reflexivity|].
      injection E as <- _. elim Hc. now left.
    + injection E as _ ->. right. now exists l, post.
  - apply app_eq_app in E as (l2 & [[-> E]|[-> E]]).
    + destruct l2 as [|c' l2]; cbn [app] in E.
      * left. exists pre, []. now rewrite !app_nil_r.
      * injection E as <- _. elim Hc. rewrite in_app_iff. right. now left.
    + left. exists pre, l2. reflexivity.
Qed.

Lemma infix_join_piece (c : char) (m : str) (l : list str) :
  ~ In c m -> m <> [] -> infix m (join [c] l) ->
  exists x, In x l /\ infix m x.
Proof.
  intros Hc Hm. induction l as [|x l IH]; cbn [join].
  - intros (p & q & E). destruct p; [|discriminate].
    destruct m; [now elim Hm | discriminate].
  - destruct l as [|y l].
    + intros H. exists x. split; [now left | exact H].
    + intros H. apply infix_cut in H as [H|H]; [| |exact Hc].
      * exists x. split; [now left | exact H].
      * destruct (IH H) as (z & Hz & Hi). exists z. split; [now right | exact Hi].
Qed.

Lemma splitlines_from_infix (s cur line : str) :
  In line (splitlines_from cur s) -> infix line (rev cur ++ s).
Proof.
  remember (List.length s) as n eqn:Hn. revert s cur Hn.
  induction n as [n IH] using lt_wf_ind. intros s cur Hn.
  destruct s as [|c s']; cbn [splitlines_from].
  - intros [<-|[]]. rewrite app_nil_r. apply infix_refl.
  - destruct (islinebreak c).
    + intros [<-|H]; [apply infix_app_l, infix_refl|].
      apply infix_app_r. destruct s' as [|d s'']; [destruct H|].
      destruct ((c =? 13) && (d =? 10)).
      * destruct s'' as [|e s3]; [destruct H|].
        apply (IH (List.length (e :: s3))) in H;
          [|subst n; cbn [List.length]; lia|reflexivity].
        change (c :: d :: e :: s3) with ([c; d] ++ e :: s3).
        now apply infix_app_r.
      * apply (IH (List.length (d :: s''))) in H;
          [|subst n; cbn [List.length]; lia|reflexivity].
        change (c :: d :: s'') with ([c] ++ d :: s'').
        now apply infix_app_r.
    + intros H. apply (IH (List.length s')) in H;
        [|subst n; cbn [List.length]; lia|reflexivity].
      cbn [rev] in H. now rewrite <- app_assoc in H.
Qed.

Lemma splitlines_infix (s line : str) : In line (splitlines s) -> infix line s.
Proof.
  destruct s as [|c s]; [intros []|]. cbn [splitlines].
  apply (splitlines_from_infix (c :: s) []).
Qed.

Lemma split_infix (t chunk : str) :
  In chunk (Re.split RECORD_SEP t) -> infix chunk t.
Proof.
  intros H. pose proof (join_split_from [] t) as J. cbn [rev app] in J.
  rewrite <- J. now apply infix_join.
Qed.

Lemma email_shape_chars (m : str) :
  email_shape m -> m <> [] /\ In 0x40 m /\ ~ In 0x20 m.
Proof.
  intros (l & d & t & -> & Hl & Fl & _ & Fd & _ & Ft). split; [|split].
  - destruct l; [now elim Hl | discriminate].
  - rewrite in_app_iff. right. now left.
  - rewrite Forall_forall in Fl, Fd, Ft.
    rewrite !in_app_iff. cbn [In].
    intros [H|[[H|[]]|[H|[[H|[]]|H]]]]; try discriminate H.
    + now specialize (Fl _ H).
    + now specialize (Fd _ H).
    + now specialize (Ft _ H).
Qed.

Lemma continuation_lines_In (rest : list str) (x : str) :
  In x (continuation_lines rest) -> exists l, In l rest /\ x = strip l.
Proof.
  induction rest as [|l rest IH]; cbn [continuation_lines]; [intros []|].
  destruct (startswith (lit " ") l); [|intros []].
  intros [<-|H].
  - exists l. split; [now left | reflexivity].
  - destruct (IH H) as (l' & Hl & ->). exists l'. split; [now right | reflexivity].
Qed.

Lemma search_found_shape (text : str) (pos : nat) (m : str) :
  Re.search EMAIL_RX text = Some (pos, m) -> email_shape m /\ infix m text.
Proof.
  intros H. apply search_from_found in H as (pre & post & -> & _ & Hm & _).
  split; [now apply (matches_EMAIL_RX m post) | now exists pre, post].
Qed.

Lemma affiliation_email_provenance (line : str) (after : list str) (email : str) :
  startswith (lit "AD  -") line = true ->
  affiliation_email line after = Ok email ->
  email = []
  \/ (email_shape email /\ exists l, In l (line :: after) /\ infix email l).
Proof.
  intros Ha. rewrite (affiliation_email_eq _ _ Ha).
  destruct Re.search as [[pos m]|] eqn:E; intros [= <-]; [right | now left].
  apply search_found_shape in E as [Hs Hi]. split; [exact Hs|].
  destruct (email_shape_chars _ Hs) as (Hne & _ & Hsp).
  apply (infix_join_piece 0x20) in Hi as (x & [<-|Hx] & Hi); try assumption.
  - exists line. split; [now left|].
    eapply infix_trans; [exact Hi|].
    eapply infix_trans; [apply infix_strip | apply infix_skipn].
  - apply continuation_lines_In in Hx as (l & Hl & ->).
    exists l. split; [now right|].
    eapply infix_trans; [exact Hi | apply infix_strip].
Qed.

Lemma look_ahead_provenance (rest : list str) (email : str) :
  look_ahead rest = Ok email ->
  email = [] \/ (email_shape email /\ exists l, In l rest /\ infix email l).
Proof.
  induction rest as [|line rest IH]; cbn [look_ahead].
  - intros [= <-]. now left.
  - destruct (startswith (lit "AD  -") line) eqn:Ha.
    + apply affiliation_email_provenance, Ha.
    + destruct (startswith (lit "FAU -") line); [intros [= <-]; now left|].
      intros H. destruct (IH H) as [->|(Hs & l & Hl & Hi)]; [now left|].
      right. split; [exact Hs|]. exists l. split; [now right | exact Hi].
Qed.

Lemma row_from_cons (pmid title : option str) (line : str) (lines : list str)
  (r : Row) :
  row_from pmid title lines r -> row_from pmid title (line :: lines) r.
Proof.
  intros (Hp & Ht & Hs & (l & Hl & Hi) & (l' & Hl' & Hf & Ha)).
  repeat split; try assumption.
  - exists l. split; [now right | exact Hi].
  - exists l'. split; [now right|]. now split.
Qed.

(** What pass 2 appends: one row at most for each author line, each with
    the header values and fields taken from the lines. *)
Lemma author_pass_rows (pmid title : option str) (lines : list str) :
  exists new,
    (forall records, author_pass pmid title lines records = Ok (records ++ new))
    /\ Forall (row_from pmid title lines) new
    /\ (List.length new <= count_FAU lines)%nat.
Proof.
  unfold count_FAU.
  induction lines as [|line rest (new & IH & Hnew & Hlen)];
    cbn [author_pass filter].
  - exists []. split; [intros; now rewrite app_nil_r|]. split; [constructor|].
    cbn. lia.
  - assert (Hnew' : Forall (row_from pmid title (line :: rest)) new).
    { eapply Forall_impl; [|exact Hnew]. apply row_from_cons. }
    destruct (startswith (lit "FAU -") line) eqn:Hf.
    + tag_value. cbn [bind].
      destruct (look_ahead rest) as [email|e] eqn:El;
        [|destruct (look_ahead_total rest) as [? ?]; congruence].
      cbn [bind]. destruct email as [|c email].
      * exists new. split; [exact IH|]. split; [exact Hnew'|].
        cbn [List.length]. lia.
      * exists (mkRow pmid title (strip (skipn 5 line)) (c :: email) :: new).
        split; [intros; rewrite IH, <- app_assoc; reflexivity|].
        split; [|cbn [List.length]; lia].
        constructor; [|exact Hnew'].
        apply look_ahead_provenance in El
          as [El|(Hs & l & Hl & Hi)]; [discriminate|].
        repeat split; cbn [PMID Title Author Email]; try assumption.
        -- exists l. split; [now right | exact Hi].
        -- exists line. split; [now left|]. now split.
    + exists new. split; [exact IH|]. split; [exact Hnew' | exact Hlen].
Qed.

Lemma header_pass_provenance (lines : list str) (p0 t0 p t : option str) :
  header_pass lines p0 t0 = Ok (p, t) ->
  (p = p0 \/ exists l, In l lines /\ startswith (lit "PMID-") l = true
                       /\ p = Some (strip (skipn 5 l)))
  /\ (t = t0 \/ exists l, In l lines /\ startswith (lit "TI  -") l = true
                          /\ t = Some (strip (skipn 5 l))).
Proof.
  revert p0 t0; induction lines as [|line lines IH]; intros p0 t0;
    cbn [header_pass].
  - intros [= <- <-]. auto.
  - assert (W : forall (P : str -> Prop),
               (exists l, In l lines /\ P l) ->
               exists l, In l (line :: lines) /\ P l).
    { intros P (l & Hl & HP). exists l. split; [now right | exact HP]. }
    destruct (startswith (lit "PMID-") line) eqn:Hp.
    + tag_value. cbn [bind]. intros H. apply IH in H as [[->|H1] [->|H2]];
        (split; [right | first [now left | right]]);
        try (exists line; split; [now left | now split]);
        try (destruct H1 as (l & ? & ? & ?); exists l; split; [now right | now split]);
        try (destruct H2 as (l & ? & ? & ?); exists l; split; [now right | now split]).
    + destruct (startswith (lit "TI  -") line) eqn:Ht.
      * tag_value. cbn [bind]. intros H. apply IH in H as [[->|H1] [->|H2]];
          (split; [first [now left | right] | right]);
          try (exists line; split; [now left | now split]);
          try (destruct H1 as (l & ? & ? & ?); exists l; split; [now right | now split]);
          try (destruct H2 as (l & ? & ? & ?); exists l; split; [now right | now split]).
      * intros H. apply IH in H as [[->|H1] [->|H2]];
          (split; first [now left | right]);
          try (destruct H1 as (l & ? & ? & ?); exists l; split; [now right | now split]);
          try (destruct H2 as (l & ? & ? & ?); exists l; split; [now right | now split]).
Qed.

Lemma chunk_rows_total (chunk : str) : exists new, chunk_rows chunk new.
Proof.
  destruct (header_pass_total (splitlines chunk) None None) as [[pmid title] Hh].
  destruct (author_pass_rows pmid title (splitlines chunk))
    as (new & Hn & Hf & Hl).
  exists new, pmid, title. split; [exact Hh|]. split; [|now split].
  intros records. unfold parse_chunk. cbv zeta. rewrite Hh. cbn [bind fst snd].
  apply Hn.
Qed.

(** The rows of a list of chunks are the rows of each chunk, one after the
    other. *)
Lemma parse_chunks_rows (chunks : list str) :
  exists rowss,
    Forall2 chunk_rows chunks rowss
    /\ forall records,
         parse_chunks chunks records = Ok (records ++ List.concat rowss).
Proof.
  induction chunks as [|chunk chunks (rowss & HF & IH)]; cbn [parse_chunks].
  - exists []. split; [constructor | intros; now rewrite app_nil_r].
  - destruct (chunk_rows_total chunk) as (new & Hc).
    exists (new :: rowss). split; [now constructor|].
    intros records. destruct Hc as (pmid & title & _ & Hp & _).
    rewrite Hp. cbn [bind List.concat]. rewrite IH. now rewrite app_assoc.
Qed.

Lemma chunk_rows_in_text (chunk : str) (new : list Row) :
  chunk_rows chunk new -> Forall (row_in_text chunk) new.
Proof.
  intros (pmid & title & Hh & _ & Hf & _).
  apply header_pass_provenance in Hh as [Hp Ht].
  eapply Forall_impl; [|exact Hf].
  intros r (Hrp & Hrt & Hs & (l & Hl & Hi) & (l' & Hl' & _ & Ha)).
  assert (L : forall l x, In l (splitlines chunk) -> infix x l -> infix x chunk).
  { intros l0 x H0 Hx. eapply infix_trans; [exact Hx | now apply splitlines_infix]. }
  assert (V : forall l, In l (splitlines chunk) ->
                        infix (strip (skipn 5 l)) chunk).
  { intros l0 H0. apply (L l0); [exact H0|].
    eapply infix_trans; [apply infix_strip | apply infix_skipn]. }
  split; [exact Hs|]. split; [now apply (L l)|].
  split; [rewrite Ha; now apply V|]. split.
  - intros p Ep. rewrite Hrp in Ep.
    destruct Hp as [->|(l0 & H0 & _ & ->)]; [discriminate|].
    injection Ep as <-. now apply V.
  - intros t Et. rewrite Hrt in Et.
    destruct Ht as [->|(l0 & H0 & _ & ->)]; [discriminate|].
    injection Et as <-. now apply V.
Qed.

Lemma row_in_text_infix (a b : str) (r : Row) :
  infix a b -> row_in_text a r -> row_in_text b r.
Proof.
  intros Hab (Hs & He & Ha & Hp & Ht).
  split; [exact Hs|].
  split; [eapply infix_trans; eassumption|].
  split; [eapply infix_trans; eassumption|].
  split; intros x Hx; (eapply infix_trans; [|exact Hab]); auto.
Qed.

Lemma Forall2_concat_Forall {A B} (P : A -> list B -> Prop) (Q : B -> Prop)
  (l1 : list A) (l2 : list (list B)) :
  Forall2 P l1 l2 ->
  (forall x y, In x l1 -> P x y -> Forall Q y) ->
  Forall Q (List.concat l2).
Proof.
  induction 1 as [|x y l1 l2 Hxy _ IH]; intros H; cbn [List.concat].
  - constructor.
  - apply Forall_app. split.
    + apply (H x y); [now left | exact Hxy].
    + apply IH. intros x' y' Hx'. apply H. now right.
Qed.

Lemma parse_text_rows (text : str) :
  exists rowss,
    Forall2 chunk_rows (Re.split RECORD_SEP (strip text)) rowss
    /\ parse_medline_text text = Ok (List.concat rowss).
Proof.
  destruct (parse_chunks_rows (Re.split RECORD_SEP (strip text)))
    as (rowss & HF & Hp).
  exists rowss. split; [exact HF | apply Hp].
Qed.

Lemma parse_rows_in_text (text : str) :
  exists rows,
    parse_medline_text text = Ok rows /\ Forall (row_in_text text) rows.
Proof.
  destruct (parse_text_rows text) as (rowss & HF & Hp).
  exists (List.concat rowss). split; [exact Hp|].
  apply (Forall2_concat_Forall _ _ _ _ HF).
  intros chunk new Hin Hc.
  apply chunk_rows_in_text in Hc. eapply Forall_impl; [|exact Hc].
  intros r. apply row_in_text_infix.
  eapply infix_trans; [|apply infix_strip]. now apply split_infix.
Qed.

Lemma table_rows_in_text (uploaded_files : list str) (df : list Row) :
  script uploaded_files = Ok (Success df) ->
  Forall (fun r => exists text, In text uploaded_files /\ row_in_text text r) df.
Proof.
  destruct (script_total uploaded_files) as (rowss & HF & ->).
  destruct uploaded_files as [|t ts] eqn:Eu; [discriminate|]. rewrite <- Eu in *.
  assert (Hall : Forall (fun r => exists text,
                           In text uploaded_files /\ row_in_text text r)
                   (List.concat rowss)).
  { apply (Forall2_concat_Forall _ _ _ _ HF).
    intros text rows Hin Hp.
    destruct (parse_rows_in_text text) as (rows' & Hp' & Hr).
    assert (rows' = rows) by congruence. subst rows'.
    eapply Forall_impl; [|exact Hr]. intros r Hr'. now exists text. }
  destruct (List.concat rowss) as [|r rs] eqn:E; [discriminate|].
  intros [= <-]. rewrite Forall_forall in *. intros x Hx. apply Hall.
  exact (drop_from_incl subset subset_eq_dec [] (r :: rs) x Hx).
Qed.

(** X1. Every e-mail the parser returns, and so every e-mail of the table,
    has the shape [local-part@domain.tld]; in particular it contains an
    at-sign and no blank. *)
Theorem emails_are_addresses :
  (forall text, exists rows,
      parse_medline_text text = Ok rows
      /\ Forall (fun r => email_shape (Email r)
                          /\ In 0x40 (Email r) /\ ~ In 0x20 (Email r)) rows)
  /\ (forall uploaded_files df,
        script uploaded_files = Ok (Success df) ->
        Forall (fun r => email_shape (Email r)
                         /\ In 0x40 (Email r) /\ ~ In 0x20 (Email r)) df).
Proof.
  split.
  - intros text. destruct (parse_rows_in_text text) as (rows & Hp & Hr).
    exists rows. split; [exact Hp|]. eapply Forall_impl; [|exact Hr].
    intros r (Hs & _). split; [exact Hs|]. now apply email_shape_chars.
  - intros fs df H. apply table_rows_in_text in H.
    eapply Forall_impl; [|exact H].
    intros r (text & _ & Hs & _). split; [exact Hs|]. now apply email_shape_chars.
Qed.


(** X3. A text without an at-sign gives no row. *)
Theorem no_at_sign_no_rows (text : str) :
  ~ In 0x40 text -> parse_medline_text text = Ok [].
Proof.
  intros Hno. destruct (parse_rows_in_text text) as (rows & Hp & Hr).
  rewrite Hp. f_equal. destruct rows as [|r rows]; [reflexivity|].
  inversion Hr as [|? ? (Hs & Hi & _) _]. subst.
  elim Hno. apply (infix_In _ _ _ Hi).
  now apply email_shape_chars.
Qed.

(** ** Whitespace *)

Lemma dropwhile_app_all {A} (p : A -> bool) (ws l : list A) :
  Forall (fun c => p c = true) ws -> dropwhile p (ws ++ l) = dropwhile p l.
Proof.
  induction 1 as [|c ws Hc _ IH]; cbn [app dropwhile]; [reflexivity|].
  now rewrite Hc.
Qed.

Lemma dropwhile_all {A} (p : A -> bool) (ws : list A) :
  Forall (fun c => p c = true) ws -> dropwhile p ws = [].
Proof.
  intros H. rewrite <- (app_nil_r ws). now rewrite dropwhile_app_all.
Qed.

Lemma dropwhile_head {A} (p : A -> bool) (l : list A) :
  match dropwhile p l with
  | [] => True
  | x :: _ => p x = false
  end.
Proof.
  induction l as [|x l IH]; cbn [dropwhile]; [exact I|].
  destruct (p x) eqn:Hx; [exact IH | exact Hx].
Qed.

Lemma dropwhile_id {A} (p : A -> bool) (l : list A) :
  match l with
  | [] => True
  | x :: _ => p x = false
  end ->
  dropwhile p l = l.
Proof. destruct l as [|x l]; cbn [dropwhile]; [reflexivity | now intros ->]. Qed.

Lemma rstrip_app_ws (x ws : str) :
  Forall (fun c => isspace c = true) ws -> rstrip (x ++ ws) = rstrip x.
Proof.
  intros H. unfold rstrip. rewrite rev_app_distr, dropwhile_app_all;
    [reflexivity | now apply Forall_rev].
Qed.

Lemma strip_app_ws (t ws : str) :
  Forall (fun c => isspace c = true) ws -> strip (t ++ ws) = strip t.
Proof.
  intros H. unfold strip, lstrip.
  induction t as [|c t IH]; cbn [app dropwhile].
  - now rewrite (dropwhile_all _ _ H).
  - destruct (isspace c); [exact IH|].
    now apply (rstrip_app_ws (c :: t)).
Qed.

Lemma strip_surrounded (ws1 text ws2 : str) :
  Forall (fun c => isspace c = true) ws1 ->
  Forall (fun c => isspace c = true) ws2 ->
  strip (ws1 ++ text ++ ws2) = strip text.
Proof.
  intros H1 H2. rewrite <- (strip_app_ws text ws2 H2).
  unfold strip, lstrip. now rewrite dropwhile_app_all.
Qed.

Lemma strip_strip (s : str) : strip (strip s) = strip s.
Proof.
  unfold strip at 1. unfold lstrip.
  assert (Hl : dropwhile isspace (strip s) = strip s).
  { apply dropwhile_id. unfold strip, rstrip, lstrip.
    destruct (dropwhile_suffix isspace (rev (dropwhile isspace s)))
      as (pre & E & _).
    pose proof (dropwhile_head isspace s) as Hh.
    apply (f_equal (@rev N)) in E.
    rewrite rev_involutive, rev_app_distr in E.
    destruct (rev (dropwhile isspace (rev (dropwhile isspace s))))
      as [|x b]; [exact I|].
    rewrite E in Hh. exact Hh. }
  rewrite Hl. unfold rstrip, strip, rstrip. rewrite rev_involutive.
  rewrite dropwhile_id; [reflexivity|]. apply dropwhile_head.
Qed.

(** X4. Whitespace around the text does not change the result: the text is
    stripped before it is split. *)
Theorem surrounding_whitespace_is_ignored (ws1 text ws2 : str) :
  Forall (fun c => isspace c = true) ws1 ->
  Forall (fun c => isspace c = true) ws2 ->
  parse_medline_text (ws1 ++ text ++ ws2) = parse_medline_text text.
Proof.
  intros H1 H2. unfold parse_medline_text.
  now rewrite (strip_surrounded ws1 text ws2 H1 H2).
Qed.

Lemma class_char_not_space (c : char) :
  local_cls c = true \/ domain_cls c = true \/ isalpha_ascii c = true
  \/ c = 0x40 \/ c = 0x2E ->
  isspace c = false.
Proof.
  intros H.
  assert (R : 33 <= c <= 126).
  { unfold local_cls, domain_cls, isalpha_ascii, isdigit_ascii in H.
    change (one_of "._%+-" c)
      with ((c =? 46) || ((c =? 95) || ((c =? 37) || ((c =? 43)
            || ((c =? 45) || false))))) in H.
    change (one_of ".-" c) with ((c =? 46) || ((c =? 45) || false)) in H.
    rewrite ?orb_true_iff, ?andb_true_iff, ?N.leb_le, ?N.eqb_eq in H.
    repeat match goal with
           | H : _ \/ _ |- _ => destruct H as [H|H]
           | H : _ /\ _ |- _ => destruct H
           end; try discriminate; lia. }
  unfold isspace.
  rewrite ?orb_false_iff, ?andb_false_iff, ?N.leb_gt, ?N.eqb_neq.
  repeat split; lia.
Qed.

Lemma email_shape_no_space (m : str) :
  email_shape m -> Forall (fun c => isspace c = false) m.
Proof.
  intros (l & d & t & -> & _ & Fl & _ & Fd & _ & Ft).
  rewrite Forall_forall in *. intros c.
  rewrite !in_app_iff. cbn [In].
  intros H. apply class_char_not_space.
  destruct H as [H|[[H|[]]|[H|[[H|[]]|H]]]]; auto.
Qed.

Lemma chunk_rows_stripped (chunk : str) (new : list Row) :
  chunk_rows chunk new ->
  Forall (fun r => strip (Author r) = Author r
                   /\ (forall p, PMID r = Some p -> strip p = p)
                   /\ (forall t, Title r = Some t -> strip t = t)
                   /\ Forall (fun c => isspace c = false) (Email r)) new.
Proof.
  intros (pmid & title & Hh & _ & Hf & _).
  apply header_pass_provenance in Hh as [Hp Ht].
  eapply Forall_impl; [|exact Hf].
  intros r (Hrp & Hrt & Hs & _ & (l' & _ & _ & Ha)).
  split; [rewrite Ha; apply strip_strip|]. split; [|split].
  - intros p Ep. rewrite Hrp in Ep.
    destruct Hp as [->|(l0 & _ & _ & ->)]; [discriminate|].
    injection Ep as <-. apply strip_strip.
  - intros t Et. rewrite Hrt in Et.
    destruct Ht as [->|(l0 & _ & _ & ->)]; [discriminate|].
    injection Et as <-. apply strip_strip.
  - now apply email_shape_no_space.
Qed.

(** X10. The fields of a row are trimmed: stripping the author, the
    identifier or the title of a row again changes nothing, and the e-mail
    contains no whitespace character at all. *)
Theorem row_fields_are_trimmed (text : str) :
  exists rows,
    parse_medline_text text = Ok rows
    /\ Forall (fun r => strip (Author r) = Author r
                        /\ (forall p, PMID r = Some p -> strip p = p)
                        /\ (forall t, Title r = Some t -> strip t = t)
                        /\ Forall (fun c => isspace c = false) (Email r)) rows.
Proof.
  destruct (parse_text_rows text) as (rowss & HF & Hp).
  exists (List.concat rowss). split; [exact Hp|].
  apply (Forall2_concat_Forall _ _ _ _ HF).
  intros chunk new _. apply chunk_rows_stripped.
Qed.

(** ** Rows and records *)

Lemma count_FAU_app (a b : list str) :
  count_FAU (a ++ b) = (count_FAU a + count_FAU b)%nat.
Proof. unfold count_FAU. now rewrite filter_app, length_app. Qed.

Lemma chunk_rows_count (chunks : list str) (rowss : list (list Row)) :
  Forall2 chunk_rows chunks rowss ->
  (List.length (List.concat rowss)
   <= count_FAU (flat_map splitlines chunks))%nat.
Proof.
  induction 1 as [|chunk new chunks rowss Hc _ IH];
    cbn [List.concat flat_map]; [unfold count_FAU; cbn; lia|].
  destruct Hc as (_ & _ & _ & _ & _ & Hl).
  rewrite length_app, count_FAU_app. lia.
Qed.

(** X5. The parser returns at most one row for each author line: the number
    of rows is bounded by the number of lines, over all records, that start
    with ['FAU -']. *)
Theorem at_most_one_row_per_author_line (text : str) :
  exists rows,
    parse_medline_text text = Ok rows
    /\ (List.length rows
        <= count_FAU (flat_map splitlines (Re.split RECORD_SEP (strip text))))%nat.
Proof.
  destruct (parse_text_rows text) as (rowss & HF & Hp).
  exists (List.concat rowss). split; [exact Hp | now apply chunk_rows_count].
Qed.

(** X6. Records are parsed independently of one another.  The rows of a text
    are the rows of its chunks, in order.  What a chunk contributes does not
    depend on the rows collected before it, and all its rows carry the
    identifier and the title that a header pass over this chunk alone,
    started with both absent, ends with: nothing is inherited from the
    record before, and an author line placed above the ['TI  -'] line of its
    record has the title too. *)
Theorem records_are_independent (text : str) :
  exists rowss,
    parse_medline_text text = Ok (List.concat rowss)
    /\ Forall2
         (fun chunk new =>
            exists pmid title,
              header_pass (splitlines chunk) None None = Ok (pmid, title)
              /\ (forall records,
                    parse_chunk chunk records = Ok (records ++ new))
              /\ Forall (fun r => PMID r = pmid /\ Title r = title) new)
         (Re.split RECORD_SEP (strip text)) rowss.
Proof.
  destruct (parse_text_rows text) as (rowss & HF & Hp).
  exists rowss. split; [exact Hp|].
  eapply Forall2_impl; [|exact HF].
  intros chunk new (pmid & title & Hh & Hc & Hf & _).
  exists pmid, title. split; [exact Hh|]. split; [exact Hc|].
  eapply Forall_impl; [|exact Hf]. intros r (H1 & H2 & _). now split.
Qed.

Lemma splitlines_from_first (s cur : str) :
  exists u rest, splitlines_from cur s = (rev cur ++ u) :: rest.
Proof.
  revert cur; induction s as [|c s IH]; intros cur; cbn [splitlines_from].
  - exists [], []. now rewrite app_nil_r.
  - destruct (islinebreak c).
    + eexists [], _. rewrite app_nil_r. reflexivity.
    + destruct (IH (c :: cur)) as (u & rest & ->).
      exists (c :: u), rest. cbn [rev]. now rewrite <- app_assoc.
Qed.

Lemma splitlines_first_PMID (chunk : str) :
  startswith (lit "PMID-") chunk = true ->
  exists line rest,
    splitlines chunk = line :: rest /\ startswith (lit "PMID-") line = true.
Proof.
  intros H. apply startswith_app in H. rewrite H.
  set (tail := skipn (List.length (lit "PMID-")) chunk).
  destruct (splitlines_from_first tail (rev (lit "PMID-"))) as (u & rest & E).
  exists (lit "PMID-" ++ u), rest. split; [|reflexivity].
  change (splitlines (lit "PMID-" ++ tail))
    with (splitlines_from (rev (lit "PMID-")) tail).
  exact E.
Qed.

Lemma later_chunks_start_with_PMID (t chunk : str) :
  In chunk (tl (Re.split RECORD_SEP t)) ->
  startswith (lit "PMID-") chunk = true.
Proof.
  unfold Re.split.
  destruct (Re.split_from RECORD_SEP [] 0 t) as [|x rest] eqn:E; [intros []|].
  cbn [tl]. intros Hc. apply in_split in Hc as (l1 & l2 & ->).
  apply (record_start_chunk chunk l2).
  apply (split_from_boundary [] t (x :: l1) (chunk :: l2));
    [exact E | discriminate | discriminate].
Qed.

(** X7. Only the text before the first record marker can give rows without
    an identifier: every chunk after the first begins with a ['PMID-'] line,
    so each of its rows has an identifier. *)
Theorem later_records_have_an_identifier (text chunk : str) :
  In chunk (tl (Re.split RECORD_SEP (strip text))) ->
  exists new,
    (forall records, parse_chunk chunk records = Ok (records ++ new))
    /\ Forall (fun r => PMID r <> None) new.
Proof.
  intros Hin. apply later_chunks_start_with_PMID in Hin.
  apply splitlines_first_PMID in Hin as (line & rest & El & Hp).
  destruct (chunk_rows_total chunk) as (new & pmid & title & Hh & Hc & Hf & _).
  exists new. split; [exact Hc|].
  rewrite El in Hh. cbn [header_pass] in Hh. rewrite Hp in Hh.
  rewrite (field_value_tag _ _ in_tags_PMID Hp) in Hh. cbn [bind] in Hh.
  apply header_pass_provenance in Hh as [[->|(l & _ & _ & ->)] _];
    (eapply Forall_impl; [|exact Hf]); intros r (-> & _); discriminate.
Qed.

(** ** The table *)

Section DropDuplicatesMore.
Context {R K : Type} (key : R -> K).
Context (key_eq_dec : forall a b : K, {a = b} + {a <> b}).

Lemma drop_from_complete (seen : list K) (rows : list R) (r : R) :
  In r rows -> ~ In (key r) seen ->
  exists r', In r' (Pd.drop_from key key_eq_dec seen rows) /\ key r' = key r.
Proof.
  revert seen; induction rows as [|x rows IH]; intros seen; [intros []|].
  cbn [Pd.drop_from]. intros Hin Hs.
  destruct (in_dec key_eq_dec (key x) seen) as [Hx|Hx].
  - destruct Hin as [->|Hin]; [contradiction | now apply IH].
  - destruct (key_eq_dec (key x) (key r)) as [E|E].
    + exists x. split; [now left | exact E].
    + destruct Hin as [->|Hin]; [now elim E|].
      destruct (IH (key x :: seen) Hin) as (r' & Hr' & Hk).
      * intros [H|H]; [now elim E | contradiction].
      * exists r'. split; [now right | exact Hk].
Qed.

Lemma drop_from_length (seen : list K) (rows : list R) :
  (List.length (Pd.drop_from key key_eq_dec seen rows) <= List.length rows)%nat.
Proof.
  revert seen; induction rows as [|x rows IH]; intros seen;
    cbn [Pd.drop_from List.length]; [lia|].
  destruct (in_dec key_eq_dec (key x) seen); cbn [List.length].
  - specialize (IH seen). lia.
  - specialize (IH (key x :: seen)). lia.
Qed.

Lemma drop_from_distinct (seen : list K) (rows : list R) :
  NoDup (map key rows) -> (forall r, In r rows -> ~ In (key r) seen) ->
  Pd.drop_from key key_eq_dec seen rows = rows.
Proof.
  revert seen; induction rows as [|x rows IH]; intros seen Hnd Hs;
    cbn [Pd.drop_from]; [reflexivity|].
  cbn [map] in Hnd. inversion Hnd as [|? ? Hx Hnd']; subst.
  destruct (in_dec key_eq_dec (key x) seen) as [H|H].
  - elim (Hs x); [now left | exact H].
  - f_equal. apply IH; [exact Hnd'|].
    intros r Hr [E|Hin].
    + apply Hx. rewrite E. now apply in_map.
    + apply (Hs r); [now right | exact Hin].
Qed.

End DropDuplicatesMore.

Lemma parse_results_unique (texts : list str) (a b : list (list Row)) :
  Forall2 (fun t rows => parse_medline_text t = Ok rows) texts a ->
  Forall2 (fun t rows => parse_medline_text t = Ok rows) texts b ->
  a = b.
Proof.
  intros Ha; revert b; induction Ha as [|t rows texts a Hr _ IH];
    intros b Hb; inversion Hb as [|? rows' ? b' Hr' Hb']; subst.
  - reflexivity.
  - f_equal; [congruence | now apply IH].
Qed.

(** X8. Removing duplicates loses no (identifier, author, e-mail) triple and
    adds nothing: every row of the table is a row some file gave, every
    triple some file gave is the triple of a row of the table, the table is
    no longer than the rows collected, and when the rows collected have
    pairwise distinct triples the table is exactly those rows. *)
Theorem table_keeps_every_triple (uploaded_files : list str) (df : list Row) :
  script uploaded_files = Ok (Success df) ->
  exists rowss,
    Forall2 (fun t rows => parse_medline_text t = Ok rows) uploaded_files rowss
    /\ incl df (List.concat rowss)
    /\ (forall r, In r (List.concat rowss) ->
                  exists r', In r' df /\ subset r' = subset r)
    /\ (List.length df <= List.length (List.concat rowss))%nat
    /\ (NoDup (map subset (List.concat rowss)) -> df = List.concat rowss).
Proof.
  intros Hs. destruct (script_total uploaded_files) as (rowss & HF & E).
  rewrite E in Hs. exists rowss. split; [exact HF|].
  assert (Hdf : df = Pd.drop_duplicates subset subset_eq_dec (List.concat rowss)).
  { destruct uploaded_files; [discriminate|].
    destruct (List.concat rowss); [discriminate|]. now injection Hs as <-. }
  clear Hs E. subst df. unfold Pd.drop_duplicates. split; [|split; [|split]].
  - apply drop_from_incl.
  - intros r Hr. apply drop_from_complete; [exact Hr | intros []].
  - apply drop_from_length.
  - intros Hnd. apply drop_from_distinct; [exact Hnd | intros r _ []].
Qed.

(** X9. Uploading more files only adds rows at the end: when the script
    shows a table for some files, the table it shows for these files
    followed by others begins with the same rows in the same order, and the
    rows after them have triples the first table does not have. *)
Theorem more_files_only_append (files more_files : list str) (df : list Row) :
  script files = Ok (Success df) ->
  exists more,
    script (files ++ more_files) = Ok (Success (df ++ more))
    /\ Forall (fun r => ~ In (subset r) (map subset df)) more.
Proof.
  intros Hs.
  destruct (script_total files) as (rowss1 & HF1 & E1). rewrite E1 in Hs.
  destruct (script_total (files ++ more_files)) as (rowss & HF & E).
  apply Forall2_app_inv_l in HF as (r1 & r2 & H1 & H2 & ->).
  assert (r1 = rowss1) by (eapply parse_results_unique; eassumption). subst r1.
  rewrite E. clear E E1.
  destruct files as [|t ts]; [discriminate|].
  destruct (List.concat rowss1) as [|x xs] eqn:Ec; [discriminate|].
  injection Hs as <-.
  cbn [app]. rewrite concat_app, Ec. cbn [app].
  exists (Pd.drop_from subset subset_eq_dec
            (rev (map subset (Pd.drop_duplicates subset subset_eq_dec (x :: xs)))
             ++ [])
            (List.concat r2)).
  split.
  - do 2 f_equal. unfold Pd.drop_duplicates.
    change (x :: xs ++ List.concat r2) with ((x :: xs) ++ List.concat r2).
    apply drop_from_app.
  - apply Forall_forall. intros r Hr Hin.
    apply (proj2 (drop_from_fresh subset subset_eq_dec _ _) r Hr).
    rewrite app_nil_r. now apply in_rev in Hin.
Qed.

(** ** Lines *)

Lemma Forall_infix {P : N -> Prop} (m s : str) :
  infix m s -> Forall P s -> Forall P m.
Proof.
  intros (pre & post & ->) H.
  apply Forall_app in H as [_ H]. now apply Forall_app in H as [H _].
Qed.

Lemma splitlines_from_no_linebreak (s cur line : str) :
  Forall (fun c => islinebreak c = false) cur ->
  In line (splitlines_from cur s) ->
  Forall (fun c => islinebreak c = false) line.
Proof.
  remember (List.length s) as n eqn:Hn. revert s cur Hn.
  induction n as [n IH] using lt_wf_ind. intros s cur Hn Hcur.
  destruct s as [|c s']; cbn [splitlines_from].
  - intros [<-|[]]. now apply Forall_rev.
  - destruct (islinebreak c) eqn:Hc.
    + intros [<-|H]; [now apply Forall_rev|].
      destruct s' as [|d s'']; [destruct H|].
      destruct ((c =? 13) && (d =? 10)).
      * destruct s'' as [|e s3]; [destruct H|].
        apply (IH (List.length (e :: s3))) in H;
          [exact H|subst n; cbn [List.length]; lia|reflexivity|constructor].
      * apply (IH (List.length (d :: s''))) in H;
          [exact H|subst n; cbn [List.length]; lia|reflexivity|constructor].
    + intros H. apply (IH (List.length s')) in H;
        [exact H|subst n; cbn [List.length]; lia|reflexivity|now constructor].
Qed.

Lemma splitlines_no_linebreak (s line : str) :
  In line (splitlines s) -> Forall (fun c => islinebreak c = false) line.
Proof.
  destruct s as [|c s]; [intros []|]. cbn [splitlines].
  apply splitlines_from_no_linebreak. constructor.
Qed.

Lemma chunk_rows_fields (chunk : str) (new : list Row) :
  chunk_rows chunk new ->
  Forall (fun r => forall f, field_of r f ->
                   exists l, In l (splitlines chunk) /\ infix f l) new.
Proof.
  intros (pmid & title & Hh & _ & Hf & _).
  apply header_pass_provenance in Hh as [Hp Ht].
  eapply Forall_impl; [|exact Hf].
  intros r (Hrp & Hrt & Hs & (l & Hl & Hi) & (l' & Hl' & _ & Ha)) f.
  assert (V : forall l, infix (strip (skipn 5 l)) l).
  { intros l0. eapply infix_trans; [apply infix_strip | apply infix_skipn]. }
  intros [->|[->|[Ef|Ef]]].
  - now exists l.
  - exists l'. split; [exact Hl'|]. rewrite Ha. apply V.
  - rewrite Hrp in Ef.
    destruct Hp as [->|(l0 & H0 & _ & ->)]; [discriminate|].
    injection Ef as <-. exists l0. split; [exact H0 | apply V].
  - rewrite Hrt in Ef.
    destruct Ht as [->|(l0 & H0 & _ & ->)]; [discriminate|].
    injection Ef as <-. exists l0. split; [exact H0 | apply V].
Qed.

(** X11. Every field of a row lies within one line of its record: the
    e-mail, the author, the identifier and the title of a row contain no
    line-break character. *)
Theorem row_fields_are_single_line (text : str) :
  exists rows,
    parse_medline_text text = Ok rows
    /\ Forall (fun r => forall f, field_of r f ->
                        Forall (fun c => islinebreak c = false) f) rows.
Proof.
  destruct (parse_text_rows text) as (rowss & HF & Hp).
  exists (List.concat rowss). split; [exact Hp|].
  apply (Forall2_concat_Forall _ _ _ _ HF).
  intros chunk new _ Hc. apply chunk_rows_fields in Hc.
  eapply Forall_impl; [|exact Hc].
  intros r H f Hf. destruct (H f Hf) as (l & Hl & Hi).
  apply (Forall_infix _ _ Hi). now apply splitlines_no_linebreak in Hl.
Qed.

(** ** An address after the author line is found *)

Lemma search_complete (text m : str) :
  infix m text -> email_shape m ->
  exists pos e, Re.search EMAIL_RX text = Some (pos, e) /\ email_shape e.
Proof.
  intros (pre & post & ->) Hs. unfold Re.search.
  destruct (Re.search_from EMAIL_RX 0 (pre ++ m ++ post)) as [[pos e]|] eqn:E.
  - exists pos, e. split; [reflexivity|].
    now apply (search_found_shape (pre ++ m ++ post) pos e).
  - exfalso. apply (match_at_complete EMAIL_RX m post).
    + now apply matches_EMAIL_RX.
    + now apply (search_from_none _ _ _ E pre).
Qed.

Lemma infix_after_spaces (m ws s : str) :
  Forall (fun c => isspace c = true) ws ->
  Forall (fun c => isspace c = false) m -> m <> [] ->
  infix m (ws ++ s) -> infix m s.
Proof.
  intros Hws Hm Hne. induction Hws as [|c ws Hc _ IH]; cbn [app]; [auto|].
  intros H. apply (infix_cut c m [] (ws ++ s)) in H as [H|H].
  - destruct H as (p & q & E). destruct p; [|discriminate].
    destruct m; [now elim Hne | discriminate].
  - now apply IH.
  - intros Hin. rewrite Forall_forall in Hm. specialize (Hm _ Hin). congruence.
Qed.

Lemma infix_before_spaces (m s ws : str) :
  Forall (fun c => isspace c = true) ws ->
  Forall (fun c => isspace c = false) m -> m <> [] ->
  infix m (s ++ ws) -> infix m s.
Proof.
  intros Hws Hm Hne H. destruct ws as [|c ws]; [now rewrite app_nil_r in H|].
  inversion Hws as [|? ? Hc Hws']; subst.
  apply (infix_cut c) in H as [H|H]; [exact H| |].
  - exfalso. destruct m as [|x m]; [now elim Hne|].
    assert (Hx : In x ws) by (apply (infix_In x _ _ H); now left).
    rewrite Forall_forall in Hws'. specialize (Hws' _ Hx).
    inversion Hm; subst. congruence.
  - intros Hin. rewrite Forall_forall in Hm. specialize (Hm _ Hin). congruence.
Qed.

Lemma strip_decompose (s : str) :
  exists pre post,
    s = pre ++ strip s ++ post
    /\ Forall (fun c => isspace c = true) pre
    /\ Forall (fun c => isspace c = true) post.
Proof.
  unfold strip, rstrip, lstrip.
  destruct (dropwhile_suffix isspace s) as (pre & E & Hpre).
  destruct (dropwhile_suffix isspace (rev (dropwhile isspace s)))
    as (post & E' & Hpost).
  exists pre, (rev post). split; [|split; [exact Hpre | now apply Forall_rev]].
  rewrite E at 1. f_equal.
  rewrite <- (rev_involutive (dropwhile isspace s)) at 1.
  rewrite E' at 1. now rewrite rev_app_distr.
Qed.

Lemma infix_strip_inv (m s : str) :
  email_shape m -> infix m s -> infix m (strip s).
Proof.
  intros Hs Hi. destruct (strip_decompose s) as (pre & post & E & Hpre & Hpost).
  pose proof (email_shape_no_space _ Hs) as Hm.
  destruct (email_shape_chars _ Hs) as (Hne & _).
  rewrite E in Hi. apply infix_after_spaces in Hi; try assumption.
  now apply infix_before_spaces in Hi.
Qed.

(** X12. An address on the affiliation line is not missed: when the first
    ['AD  -'] line after an author line (with only lines that are neither
    ['AD  -'] nor ['FAU -'] in between) has, after its tag, a substring of
    the e-mail shape, the author line appends a row with the stripped author
    name and an e-mail of that shape. *)
Theorem address_after_author_is_found
  (pmid title : option str) (fau : str) (skipped : list str) (ad : str)
  (after : list str) (records : list Row) (m : str) :
  startswith (lit "FAU -") fau = true ->
  Forall passed_over skipped ->
  startswith (lit "AD  -") ad = true ->
  email_shape m -> infix m (skipn 5 ad) ->
  exists email,
    email_shape email
    /\ look_ahead (skipped ++ ad :: after) = Ok email
    /\ author_pass pmid title (fau :: skipped ++ ad :: after) records
       = author_pass pmid title (skipped ++ ad :: after)
           (records ++ [mkRow pmid title (strip (skipn 5 fau)) email]).
Proof.
  intros Hf Hsk Ha Hs Hi.
  apply (infix_strip_inv _ _ Hs) in Hi.
  assert (Hj : infix m (join (lit " ")
                          (strip (skipn 5 ad) :: continuation_lines after))).
  { eapply infix_trans; [exact Hi|]. apply infix_join. now left. }
  destruct (search_complete _ _ Hj Hs) as (pos & e & Hsearch & He).
  assert (Hl : look_ahead (skipped ++ ad :: after) = Ok e).
  { rewrite (look_ahead_skip _ _ Hsk), (look_ahead_at_AD _ _ Ha).
    rewrite (affiliation_email_eq _ _ Ha), Hsearch. reflexivity. }
  exists e. split; [exact He|]. split; [exact Hl|].
  destruct (email_shape_chars _ He) as (Hne & _).
  destruct e as [|c e]; [now elim Hne|].
  now apply author_pass_email.
Qed.

(** ** Lines joined by line feeds *)

Lemma splitlines_from_last (l cur : str) :
  Forall (fun c => islinebreak c = false) l ->
  splitlines_from cur l = [rev cur ++ l].
Proof.
  intros H; revert cur; induction H as [|c l Hc _ IH]; intros cur;
    cbn [splitlines_from].
  - now rewrite app_nil_r.
  - rewrite Hc, IH. cbn [rev]. now rewrite <- app_assoc.
Qed.

Lemma splitlines_from_line (l cur rest : str) :
  Forall (fun c => islinebreak c = false) l ->
  splitlines_from cur (l ++ 0x0A :: rest) = (rev cur ++ l) :: splitlines rest.
Proof.
  intros H; revert cur; induction H as [|c l Hc _ IH]; intros cur;
    cbn [app splitlines_from].
  - rewrite app_nil_r. destruct rest; reflexivity.
  - rewrite Hc, IH. cbn [rev]. now rewrite <- app_assoc.
Qed.

(** X13. Lines written one per line are read back as they are: when no line
    contains a line-break character and the last line is not empty,
    [splitlines] of the lines joined by line feeds gives the lines back (empty
    lines in between included), so both passes of the parser run over
    exactly these lines. *)
Theorem splitlines_of_joined_lines (lines : list str) (last : str)
  (records : list Row) :
  Forall (Forall (fun c => islinebreak c = false)) (lines ++ [last]) ->
  last <> [] ->
  splitlines (join [0x0A] (lines ++ [last])) = lines ++ [last]
  /\ parse_chunk (join [0x0A] (lines ++ [last])) records
     = (hd <- header_pass (lines ++ [last]) None None ;;
        author_pass (fst hd) (snd hd) (lines ++ [last]) records).
Proof.
  intros Hall Hlast.
  assert (E : splitlines (join [0x0A] (lines ++ [last])) = lines ++ [last]).
  { induction lines as [|x lines IH]; cbn [app] in *.
    - inversion Hall as [|? ? Hl _]; subst. cbn [join].
      destruct last as [|c last]; [now elim Hlast|]. cbn [splitlines].
      now rewrite splitlines_from_last.
    - inversion Hall as [|? ? Hx Hrest]; subst.
      rewrite join_cons by (destruct lines; discriminate).
      cbn [app].
      assert (S : forall s, splitlines (x ++ 0x0A :: s)
                            = splitlines_from [] (x ++ 0x0A :: s))
        by (intros s; destruct x; reflexivity).
      rewrite S, splitlines_from_line by exact Hx.
      cbn [rev app]. f_equal. now apply IH. }
  split; [exact E|]. unfold parse_chunk. cbv zeta. now rewrite E.
Qed.

(** ** The further properties at concrete inputs *)

Lemma emails_are_addresses_witness :
  let file := text_of ["PMID- 1"; "TI  - T1"; "FAU - Smith J";
                       "AD  - Dept of X. jsmith@uni.edu"] in
  let row := mkRow (Some (lit "1")) (Some (lit "T1")) (lit "Smith J")
                   (lit "jsmith@uni.edu") in
  script [file] = Ok (Success [row])
  /\ email_shape (lit "jsmith@uni.edu")
  /\ In 0x40 (lit "jsmith@uni.edu")
  /\ ~ In 0x20 (lit "jsmith@uni.edu").
Proof.
  intros file row.
  assert (H : script [file] = Ok (Success [row])) by (vm_compute; reflexivity).
  pose proof (proj2 emails_are_addresses [file] [row] H) as F.
  inversion F as [|? ? Hr _]. exact (conj H Hr).
Defined.


Lemma no_at_sign_no_rows_witness :
  let text := text_of ["PMID- 1"; "FAU - Smith J"; "AD  - Dept of X, City"] in
  ~ In 0x40 text /\ parse_medline_text text = Ok [].
Proof.
  intros text.
  assert (H : ~ In 0x40 text).
  { intros H. vm_compute in H.
    repeat (destruct H as [H|H]; [discriminate H|]). exact H. }
  exact (conj H (no_at_sign_no_rows text H)).
Defined.

Lemma surrounding_whitespace_is_ignored_witness :
  let text := text_of ["PMID- 1"; "FAU - Smith J"; "AD  - jsmith@uni.edu"] in
  Forall (fun c => isspace c = true) [0x0A; 0x20]
  /\ Forall (fun c => isspace c = true) [0x20; 0x0D; 0x0A; 0x09]
  /\ parse_medline_text ([0x0A; 0x20] ++ text ++ [0x20; 0x0D; 0x0A; 0x09])
     = parse_medline_text text.
Proof.
  intros text.
  assert (H1 : Forall (fun c => isspace c = true) [0x0A; 0x20])
    by (repeat constructor).
  assert (H2 : Forall (fun c => isspace c = true) [0x20; 0x0D; 0x0A; 0x09])
    by (repeat constructor).
  exact (conj H1 (conj H2 (surrounding_whitespace_is_ignored _ text _ H1 H2))).
Defined.

Lemma later_records_have_an_identifier_witness :
  let text := text_of ["FAU - Doe A"; "AD  - adoe@uni.edu"; "PMID- 2";
                       "FAU - Smith J"; "AD  - jsmith@uni.edu"] in
  let chunk := text_of ["PMID- 2"; "FAU - Smith J"; "AD  - jsmith@uni.edu"] in
  In chunk (tl (Re.split RECORD_SEP (strip text)))
  /\ exists new,
       (forall records, parse_chunk chunk records = Ok (records ++ new))
       /\ Forall (fun r => PMID r <> None) new.
Proof.
  intros text chunk.
  assert (H : In chunk (tl (Re.split RECORD_SEP (strip text))))
    by (vm_compute; left; reflexivity).
  exact (conj H (later_records_have_an_identifier text chunk H)).
Defined.

Lemma table_keeps_every_triple_witness :
  let file1 := text_of ["PMID- 1"; "TI  - T1"; "FAU - Smith J";
                        "AD  - jsmith@uni.edu"] in
  let file2 := text_of ["PMID- 1"; "TI  - Other"; "FAU - Smith J";
                        "AD  - jsmith@uni.edu"; "FAU - Doe A";
                        "AD  - adoe@uni.edu"] in
  let smith := mkRow (Some (lit "1")) (Some (lit "T1")) (lit "Smith J")
                     (lit "jsmith@uni.edu") in
  let doe := mkRow (Some (lit "1")) (Some (lit "Other")) (lit "Doe A")
                   (lit "adoe@uni.edu") in
  script [file1; file2] = Ok (Success [smith; doe])
  /\ exists rowss,
       Forall2 (fun t rows => parse_medline_text t = Ok rows)
               [file1; file2] rowss
       /\ incl [smith; doe] (List.concat rowss)
       /\ (List.length [smith; doe] <= List.length (List.concat rowss))%nat.
Proof.
  intros file1 file2 smith doe.
  assert (H : script [file1; file2] = Ok (Success [smith; doe]))
    by (vm_compute; reflexivity).
  destruct (table_keeps_every_triple _ _ H) as (rowss & HF & Hi & _ & Hl & _).
  split; [exact H|]. exists rowss. exact (conj HF (conj Hi Hl)).
Defined.

Lemma more_files_only_append_witness :
  let file1 := text_of ["PMID- 1"; "FAU - Smith J"; "AD  - jsmith@uni.edu"] in
  let file2 := text_of ["PMID- 1"; "FAU - Smith J"; "AD  - jsmith@uni.edu";
                        "FAU - Doe A"; "AD  - adoe@uni.edu"] in
  let smith := mkRow (Some (lit "1")) None (lit "Smith J")
                     (lit "jsmith@uni.edu") in
  script [file1] = Ok (Success [smith])
  /\ exists more,
       script ([file1] ++ [file2]) = Ok (Success ([smith] ++ more))
       /\ Forall (fun r => ~ In (subset r) (map subset [smith])) more.
Proof.
  intros file1 file2 smith.
  assert (H : script [file1] = Ok (Success [smith])) by (vm_compute; reflexivity).
  exact (conj H (more_files_only_append [file1] [file2] [smith] H)).
Defined.

Lemma row_fields_are_trimmed_witness :
  let text := text_of ["PMID-   17  "; "TI  -  A title "; "FAU -   Smith J  ";
                       "AD  - jsmith@uni.edu"] in
  let row := mkRow (Some (lit "17")) (Some (lit "A title")) (lit "Smith J")
                   (lit "jsmith@uni.edu") in
  parse_medline_text text = Ok [row]
  /\ strip (lit "Smith J") = lit "Smith J"
  /\ strip (lit "17") = lit "17"
  /\ strip (lit "A title") = lit "A title".
Proof.
  intros text row.
  assert (H : parse_medline_text text = Ok [row]) by (vm_compute; reflexivity).
  destruct (row_fields_are_trimmed text) as (rows & Hp & F).
  rewrite H in Hp. injection Hp as <-.
  inversion F as [|? ? (Ha & Hi & Ht & _) _].
  exact (conj H (conj Ha (conj (Hi _ eq_refl) (Ht _ eq_refl)))).
Defined.

Lemma row_fields_are_single_line_witness :
  let text := lit "PMID- 17" ++ [0x0D; 0x0A] ++ lit "FAU - Smith J" ++ [0x0D]
              ++ lit "AD  - jsmith@uni.edu" in
  let row := mkRow (Some (lit "17")) None (lit "Smith J")
                   (lit "jsmith@uni.edu") in
  parse_medline_text text = Ok [row]
  /\ field_of row (lit "Smith J")
  /\ Forall (fun c => islinebreak c = false) (lit "Smith J").
Proof.
  intros text row.
  assert (H : parse_medline_text text = Ok [row]) by (vm_compute; reflexivity).
  assert (Hf : field_of row (lit "Smith J")) by (right; left; reflexivity).
  destruct (row_fields_are_single_line text) as (rows & Hp & F).
  rewrite H in Hp. injection Hp as <-.
  inversion F as [|? ? Hr _].
  exact (conj H (conj Hf (Hr _ Hf))).
Defined.

Lemma address_after_author_is_found_witness :
  let fau := lit "FAU - Smith J" in
  let la := lit "LA  - eng" in
  let ad := lit "AD  -   Dept of X (jsmith@uni.edu). " in
  startswith (lit "FAU -") fau = true
  /\ Forall passed_over [la]
  /\ startswith (lit "AD  -") ad = true
  /\ email_shape (lit "jsmith@uni.edu")
  /\ infix (lit "jsmith@uni.edu") (skipn 5 ad)
  /\ exists email,
       email_shape email
       /\ look_ahead ([la] ++ ad :: []) = Ok email
       /\ author_pass None None (fau :: [la] ++ ad :: []) []
          = author_pass None None ([la] ++ ad :: [])
              ([] ++ [mkRow None None (strip (skipn 5 fau)) email]).
Proof.
  intros fau la ad.
  assert (Hf : startswith (lit "FAU -") fau = true) by reflexivity.
  assert (Hp : Forall passed_over [la]) by (repeat constructor).
  assert (Ha : startswith (lit "AD  -") ad = true) by reflexivity.
  assert (Hs : email_shape (lit "jsmith@uni.edu")).
  { exists (lit "jsmith"), (lit "uni"), (lit "edu").
    split; [reflexivity|].
    repeat split; try discriminate; try (repeat constructor); cbn; lia. }
  assert (Hi : infix (lit "jsmith@uni.edu") (skipn 5 ad)).
  { exists (lit "   Dept of X ("), (lit "). "). reflexivity. }
  exact (conj Hf (conj Hp (conj Ha (conj Hs (conj Hi
           (address_after_author_is_found None None fau [la] ad [] [] _
              Hf Hp Ha Hs Hi)))))).
Defined.

Lemma splitlines_of_joined_lines_witness :
  let lines := [lit "PMID- 1"; lit ""; lit "FAU - Smith J"] in
  let last := lit "AD  - jsmith@uni.edu" in
  Forall (Forall (fun c => islinebreak c = false)) (lines ++ [last])
  /\ last <> []
  /\ splitlines (join [0x0A] (lines ++ [last])) = lines ++ [last]
  /\ parse_chunk (join [0x0A] (lines ++ [last])) []
     = (hd <- header_pass (lines ++ [last]) None None ;;
        author_pass (fst hd) (snd hd) (lines ++ [last]) []).
Proof.
  intros lines last.
  assert (H1 : Forall (Forall (fun c => islinebreak c = false)) (lines ++ [last]))
    by (repeat constructor).
  assert (H2 : last <> []) by discriminate.
  exact (conj H1 (conj H2 (splitlines_of_joined_lines lines last [] H1 H2))).
Defined.

(** ** Uploading the same files twice *)

Lemma drop_from_all_seen {R K : Type} (key : R -> K)
  (key_eq_dec : forall a b : K, {a = b} + {a <> b})
  (seen : list K) (rows : list R) :
  (forall r, In r rows -> In (key r) seen) ->
  Pd.drop_from key key_eq_dec seen rows = [].
Proof.
  induction rows as [|x rows IH]; intros H; cbn [Pd.drop_from]; [reflexivity|].
  destruct (in_dec key_eq_dec (key x) seen) as [Hx|Hx].
  - apply IH. intros r Hr. apply H. now right.
  - elim Hx. apply H. now left.
Qed.

Lemma drop_duplicates_twice (rows : list Row) :
  Pd.drop_duplicates subset subset_eq_dec (rows ++ rows)
  = Pd.drop_duplicates subset subset_eq_dec rows.
Proof.
  unfold Pd.drop_duplicates. rewrite drop_from_app.
  rewrite (drop_from_all_seen subset subset_eq_dec
             (rev (map subset (Pd.drop_from subset subset_eq_dec [] rows)) ++ [])
             rows); [now rewrite app_nil_r|].
  intros r Hr. rewrite app_nil_r. apply in_rev. rewrite rev_involutive.
  destruct (drop_from_complete subset subset_eq_dec [] rows r Hr)
    as (r' & Hr' & <-); [intros []|].
  now apply in_map.
Qed.

(** X14. Uploading the same files a second time changes no row of the
    table: when the script builds the table [df] for a list of files, it
    builds the same table, rows and order, for the list followed by the same
    list again; and when no file of the list gives a row, none does in the
    doubled list. *)
Theorem same_files_twice_same_table (uploaded_files : list str) :
  (forall df,
     script uploaded_files = Ok (Success df) ->
     script (uploaded_files ++ uploaded_files) = Ok (Success df))
  /\ (script uploaded_files = Ok Warning ->
      script (uploaded_files ++ uploaded_files) = Ok Warning).
Proof.
  destruct (script_total uploaded_files) as (rowss1 & HF1 & E1).
  destruct (script_total (uploaded_files ++ uploaded_files)) as (rowss & HF & E).
  pose proof HF as HF'.
  apply Forall2_app_inv_l in HF' as (r1 & r2 & H1 & H2 & ->).
  assert (r1 = rowss1) by (eapply parse_results_unique; eassumption).
  assert (r2 = rowss1) by (eapply parse_results_unique; eassumption).
  subst r1 r2. rewrite E, E1. clear E E1.
  destruct uploaded_files as [|t ts]; [split; [intros df|]; discriminate|].
  cbn [app]. rewrite concat_app.
  destruct (List.concat rowss1) as [|x xs] eqn:Ec.
  - split; [intros df; discriminate | reflexivity].
  - split; [|discriminate]. intros df [= <-]. cbn [app]. do 2 f_equal.
    change (x :: xs ++ x :: xs) with ((x :: xs) ++ (x :: xs)).
    apply drop_duplicates_twice.
Qed.

Lemma same_files_twice_same_table_witness :
  let file := text_of ["PMID- 1"; "FAU - Smith J"; "AD  - jsmith@uni.edu";
                       "FAU - Doe A"; "AD  - adoe@uni.edu"] in
  let empty := text_of ["PMID- 2"; "FAU - Roe B"] in
  let df := [mkRow (Some (lit "1")) None (lit "Smith J") (lit "jsmith@uni.edu");
             mkRow (Some (lit "1")) None (lit "Doe A") (lit "adoe@uni.edu")] in
  script [file; empty] = Ok (Success df)
  /\ script ([file; empty] ++ [file; empty]) = Ok (Success df)
  /\ script [empty] = Ok Warning
  /\ script ([empty] ++ [empty]) = Ok Warning.
Proof.
  intros file empty df.
  assert (H1 : script [file; empty] = Ok (Success df))
    by (vm_compute; reflexivity).
  assert (H2 : script [empty] = Ok Warning) by (vm_compute; reflexivity).
  exact (conj H1 (conj (proj1 (same_files_twice_same_table [file; empty]) df H1)
           (conj H2 (proj2 (same_files_twice_same_table [empty]) H2)))).
Defined.
